(** * Aho-Corasick multi-pattern matcher: shallow embedding and verification

    The development embeds [src/aho_corasick_matcher.py]:
    the classes [AhoCorasickNode] and [AhoCorasick] (trie insertion,
    breadth-first failure-link construction, scanning) and the harness
    helper [AhoCorasickMatcher.handle_empty_pattern].

    Python objects live in a heap: a list of nodes in allocation order,
    a reference being an index into it.  The root is the first object
    allocated by [AhoCorasick.__init__], hence address [0].  A [dict] is
    an association list in insertion order, which is the order in which
    Python iterates it.  Strings are lists of characters over any
    alphabet with decidable equality.

    The [while] loops of the source take a bound on their iterations
    ([fuel]); a run that exhausts it ends in [OutOfFuel].  The theorems
    show that the number of nodes of the trie is always fuel enough, and
    state their results for every such fuel. *)

From Stdlib Require Import ZArith Ascii String.
From stdpp Require Import base tactics option list strings sorting.

Local Open Scope nat_scope.

(** ** Results of partial computations *)

(** Exceptions the automaton code can raise. *)
Inductive exn := AttributeError | IndexError.

(** A run of a method either returns, raises, or exhausts the bound put
    on the iterations of its [while] loops. *)
Inductive result (A : Type) :=
  | Ok (a : A)
  | Raise (e : exn)
  | OutOfFuel.
Arguments Ok {A} a.
Arguments Raise {A} e.
Arguments OutOfFuel {A}.

Global Instance result_bind : MBind result := fun A B k m =>
  match m with
  | Ok a => k a
  | Raise e => Raise e
  | OutOfFuel => OutOfFuel
  end.

Section automaton.
Context {char : Type} `{EqDecision char}.

(** ** Dictionaries keyed by characters *)

Definition dict (V : Type) := list (char * V).

(** [d.get(c)] *)
Fixpoint dict_get {V} (c : char) (d : dict V) : option V :=
  match d with
  | [] => None
  | (k, v) :: d' => if decide (c = k) then Some v else dict_get c d'
  end.

(** [c in d] *)
Definition dict_mem {V} (c : char) (d : dict V) : bool :=
  match dict_get c d with Some _ => true | None => false end.

(** [d[c] = v]: an existing key keeps its place, a new key goes last. *)
Fixpoint dict_set {V} (c : char) (v : V) (d : dict V) : dict V :=
  match d with
  | [] => [(c, v)]
  | (k, w) :: d' =>
      if decide (c = k) then (k, v) :: d' else (k, w) :: dict_set c v d'
  end.

(** ** Nodes and the automaton *)

Record AhoCorasickNode := mkNode {
  children : dict nat;
  failure_link : option nat;
  output : list nat;
  is_end_of_pattern : bool
}.

(** [AhoCorasickNode()] *)
Definition new_node : AhoCorasickNode :=
  {| children := []; failure_link := None; output := [];
     is_end_of_pattern := false |}.

Record AhoCorasick := mkAC {
  heap : list AhoCorasickNode;
  patterns : list (list char)
}.

(** Address of [self.root]. *)
Definition root : nat := 0.

(** [AhoCorasick()] *)
Definition new_automaton : AhoCorasick :=
  {| heap := [new_node]; patterns := [] |}.

(** Dereference; references held by the program always point into the heap. *)
Definition deref (h : list AhoCorasickNode) (n : nat) : AhoCorasickNode :=
  default new_node (h !! n).

Definition set_child (c : char) (m : nat) (nd : AhoCorasickNode) :=
  {| children := dict_set c m (children nd); failure_link := failure_link nd;
     output := output nd; is_end_of_pattern := is_end_of_pattern nd |}.

Definition set_failure_link (f : option nat) (nd : AhoCorasickNode) :=
  {| children := children nd; failure_link := f;
     output := output nd; is_end_of_pattern := is_end_of_pattern nd |}.

Definition extend_output (ids : list nat) (nd : AhoCorasickNode) :=
  {| children := children nd; failure_link := failure_link nd;
     output := output nd ++ ids; is_end_of_pattern := is_end_of_pattern nd |}.

Definition mark_end (pattern_id : nat) (nd : AhoCorasickNode) :=
  {| children := children nd; failure_link := failure_link nd;
     output := output nd ++ [pattern_id]; is_end_of_pattern := true |}.

(** ** [AhoCorasick.add_pattern] *)

(** The [for char in pattern] loop: walks from [current], allocating a
    node for every character that has no transition yet; returns the
    heap and the node reached. *)
Fixpoint insert_path (h : list AhoCorasickNode) (current : nat)
    (pattern : list char) : list AhoCorasickNode * nat :=
  match pattern with
  | [] => (h, current)
  | c :: rest =>
      match dict_get c (children (deref h current)) with
      | Some next => insert_path h next rest
      | None =>
          let fresh := length h in
          insert_path (alter (set_child c fresh) current (h ++ [new_node]))
                      fresh rest
      end
  end.

(** [add_pattern(pattern)] *)
Definition add_pattern (pattern : list char) (a : AhoCorasick) : AhoCorasick :=
  match pattern with
  | [] => a
  | _ :: _ =>
      let pattern_id := length (patterns a) in
      let '(h, current) := insert_path (heap a) root pattern in
      {| heap := alter (mark_end pattern_id) current h;
         patterns := patterns a ++ [pattern] |}
  end.

(** Successive calls of [add_pattern], first pattern first. *)
Definition add_patterns (ps : list (list char)) (a : AhoCorasick) : AhoCorasick :=
  foldl (fun acc p => add_pattern p acc) a ps.

(** ** Failure-link fallback *)

(** [while node != self.root and char not in node.children:
        node = node.failure_link]
    The loop occurs in [build_failure_links] (started at a
    [failure_link], which may be [None]) and in [search].  [fuel] bounds
    the number of iterations. *)
Fixpoint follow_failure (fuel : nat) (h : list AhoCorasickNode)
    (node : option nat) (c : char) : result nat :=
  match node with
  | None => Raise AttributeError
  | Some n =>
      if bool_decide (n = root) || dict_mem c (children (deref h n)) then Ok n
      else match fuel with
           | 0 => OutOfFuel
           | S fuel' => follow_failure fuel' h (failure_link (deref h n)) c
           end
  end.

(** ** [AhoCorasick.build_failure_links] *)

(** [for child in self.root.children.values()] *)
Fixpoint init_queue (h : list AhoCorasickNode) (kids : dict nat)
    (queue : list nat) : list AhoCorasickNode * list nat :=
  match kids with
  | [] => (h, queue)
  | (_, child) :: kids' =>
      init_queue (alter (set_failure_link (Some root)) child h) kids'
                 (queue ++ [child])
  end.

(** [for char, child_node in current_node.children.items()] *)
Fixpoint link_children (fuel : nat) (h : list AhoCorasickNode)
    (current_node : nat) (kids : dict nat) (queue : list nat)
    : result (list AhoCorasickNode * list nat) :=
  match kids with
  | [] => Ok (h, queue)
  | (c, child_node) :: kids' =>
      let queue' := queue ++ [child_node] in
      failure_node ← follow_failure fuel h
                        (failure_link (deref h current_node)) c;
      let target := default root (dict_get c (children (deref h failure_node))) in
      let h1 := alter (set_failure_link (Some target)) child_node h in
      let h2 := alter (extend_output (output (deref h1 target))) child_node h1 in
      link_children fuel h2 current_node kids' queue'
  end.

(** [while queue]: [n] bounds the iterations of this loop, [fuel] those
    of each inner fallback loop. *)
Fixpoint bfs_loop (n fuel : nat) (h : list AhoCorasickNode)
    (queue : list nat) : result (list AhoCorasickNode) :=
  match queue with
  | [] => Ok h
  | current_node :: queue' =>
      match n with
      | 0 => OutOfFuel
      | S n' =>
          '(h', queue'') ← link_children fuel h current_node
                              (children (deref h current_node)) queue';
          bfs_loop n' fuel h' queue''
      end
  end.

(** [build_failure_links()]; [fuel] bounds the main loop and each run
    of the fallback loop. *)
Definition build_failure_links (fuel : nat) (a : AhoCorasick)
    : result AhoCorasick :=
  let '(h, queue) := init_queue (heap a) (children (deref (heap a) root)) [] in
  h' ← bfs_loop fuel fuel h queue;
  Ok {| heap := h'; patterns := patterns a |}.

(** ** [AhoCorasick.search] *)

(** A match: start offset and pattern. *)
Definition match_ : Type := Z * list char.

(** [for pattern_id in current.output] *)
Fixpoint emit (pats : list (list char)) (i : nat) (ids : list nat)
    (matches : list match_) : result (list match_) :=
  match ids with
  | [] => Ok matches
  | pattern_id :: ids' =>
      match pats !! pattern_id with
      | None => Raise IndexError
      | Some pattern =>
          let start_pos := (Z.of_nat i - Z.of_nat (length pattern) + 1)%Z in
          emit pats i ids' (matches ++ [(start_pos, pattern)])
      end
  end.

(** [for i, char in enumerate(text)] *)
Fixpoint search_loop (fuel : nat) (a : AhoCorasick) (current : nat) (i : nat)
    (text : list char) (matches : list match_) : result (list match_) :=
  match text with
  | [] => Ok matches
  | c :: text' =>
      node ← follow_failure fuel (heap a) (Some current) c;
      let current' :=
        default node (dict_get c (children (deref (heap a) node))) in
      matches' ← match output (deref (heap a) current') with
                 | [] => Ok matches
                 | ids => emit (patterns a) i ids matches
                 end;
      search_loop fuel a current' (S i) text' matches'
  end.

(** [search(text)]; [fuel] bounds each run of the fallback loop. *)
Definition search (fuel : nat) (a : AhoCorasick) (text : list char)
    : result (list match_) :=
  search_loop fuel a root 0 text [].

(** ** [search] as a method acting on the object *)

(** A method receives the automaton and returns it with its result, so
    that what it does to the object can be stated. *)
Definition method (A : Type) : Type :=
  AhoCorasick → result (A * AhoCorasick).

Definition st_ret {A} (x : A) : method A := fun a => Ok (x, a).

Definition st_bind {A B} (m : method A) (k : A → method B) : method B :=
  fun a => match m a with
           | Ok (x, a') => k x a'
           | Raise e => Raise e
           | OutOfFuel => OutOfFuel
           end.

Definition st_raise {A} (e : exn) : method A := fun _ => Raise e.

Definition st_out_of_fuel {A} : method A := fun _ => OutOfFuel.

(** Reading the fields of the node at [n]. *)
Definition load (n : nat) : method AhoCorasickNode :=
  fun a => Ok (deref (heap a) n, a).

(** [self.patterns[pattern_id]] *)
Definition load_pattern (pattern_id : nat) : method (list char) :=
  fun a => match patterns a !! pattern_id with
           | Some pattern => Ok (pattern, a)
           | None => Raise IndexError
           end.

Fixpoint follow_failure_st (fuel : nat) (node : option nat) (c : char)
    : method nat :=
  match node with
  | None => st_raise AttributeError
  | Some n =>
      st_bind (load n) (fun nd =>
      if bool_decide (n = root) || dict_mem c (children nd) then st_ret n
      else match fuel with
           | 0 => st_out_of_fuel
           | S fuel' => follow_failure_st fuel' (failure_link nd) c
           end)
  end.

Fixpoint emit_st (i : nat) (ids : list nat) (matches : list match_)
    : method (list match_) :=
  match ids with
  | [] => st_ret matches
  | pattern_id :: ids' =>
      st_bind (load_pattern pattern_id) (fun pattern =>
      let start_pos := (Z.of_nat i - Z.of_nat (length pattern) + 1)%Z in
      emit_st i ids' (matches ++ [(start_pos, pattern)]))
  end.

Fixpoint search_loop_st (fuel : nat) (current : nat) (i : nat)
    (text : list char) (matches : list match_) : method (list match_) :=
  match text with
  | [] => st_ret matches
  | c :: text' =>
      st_bind (follow_failure_st fuel (Some current) c) (fun node =>
      st_bind (load node) (fun nd =>
      let current' := default node (dict_get c (children nd)) in
      st_bind (load current') (fun nd' =>
      st_bind (match output nd' with
               | [] => st_ret matches
               | ids => emit_st i ids matches
               end) (fun matches' =>
      search_loop_st fuel current' (S i) text' matches'))))
  end.

Definition search_st (fuel : nat) (text : list char) : method (list match_) :=
  search_loop_st fuel root 0 text [].

(** ** [AhoCorasickMatcher.handle_empty_pattern] *)

Definition handle_empty_pattern (text : list char) (ground_truth : list Z)
    : list Z :=
  match ground_truth with
  | _ :: _ => ground_truth
  | [] => Z.of_nat <$> seq 0 (Nat.min 50 (length text))
  end.

End automaton.

Arguments AhoCorasickNode : clear implicits.
Arguments AhoCorasick : clear implicits.
Arguments dict : clear implicits.
Arguments match_ : clear implicits.
Arguments method : clear implicits.

(** Python string literals. *)
Definition str (s : string) : list ascii := list_ascii_of_string s.

(** The patterns of the overlap example. *)
Definition ushers_patterns : list (list ascii) :=
  [str "he"; str "she"; str "hers"].


(** * Specification-level notions *)

Section specification.
Context {char : Type} `{EqDecision char}.
Implicit Types (h : list (AhoCorasickNode char)) (lbl : list (list char)).
Implicit Types (s t u w p : list char) (c : char) (n m k : nat).

(** The transition of node [n] on [c], if any. *)
Definition goto h n c : option nat := dict_get c (children (deref h n)).

(** The node reached from [n] along [s] by trie transitions only. *)
Fixpoint walk_from h n s : option nat :=
  match s with
  | [] => Some n
  | c :: s' => match goto h n c with
               | Some m => walk_from h m s'
               | None => None
               end
  end.

(** [walk h s = Some n]: the state [n] has path-label [s]. *)
Definition walk h s : option nat := walk_from h root s.

(** The heap in which node [n] has path-label [lbl !! n] is a trie:
    labels are pairwise distinct, the root has the empty one, and the
    transitions are exactly the one-character extensions. *)
Record trie_wf h lbl : Prop := {
  wf_length : length lbl = length h;
  wf_root : lbl !! root = Some [];
  wf_nodup : NoDup lbl;
  wf_depth : ∀ n s, lbl !! n = Some s → length s ≤ n;
  wf_keys : ∀ n, NoDup (children (deref h n)).*1;
  wf_edge : ∀ n c m, goto h n c = Some m →
              ∃ s, lbl !! n = Some s ∧ lbl !! m = Some (s ++ [c]);
  wf_parent : ∀ m s c, lbl !! m = Some (s ++ [c]) →
              ∃ n, lbl !! n = Some s ∧ goto h n c = Some m
}.


(** [t] is the longest suffix of [w] that is a path-label. *)
Definition longest_suffix lbl w t : Prop :=
  t `suffix_of` w ∧ t ∈ lbl ∧
  ∀ u, u `suffix_of` w → u ∈ lbl → length u ≤ length t.

(** Identifiers of the patterns equal to [s], in registration order. *)
Definition lit (pats : list (list char)) s : list nat :=
  filter (λ k, pats !! k = Some s) (seq 0 (length pats)).

(** All suffixes of [s], longest first. *)
Fixpoint suffixes s : list (list char) :=
  match s with
  | [] => [[]]
  | _ :: s' => s :: suffixes s'
  end.

(** Identifiers of the patterns that are suffixes of [s]: longer
    patterns first, equal ones in registration order. *)
Definition out_spec (pats : list (list char)) s : list nat :=
  suffixes s ≫= lit pats.

(** State of the automaton between [__init__] and
    [build_failure_links]: a trie holding the registered patterns, no
    failure link set, each output list holding the patterns that end at
    the node. *)
Record trie_inv (a : AhoCorasick char) lbl : Prop := {
  ti_wf : trie_wf (heap a) lbl;
  ti_pats : ∀ p, p ∈ patterns a → p ≠ [] ∧ p ∈ lbl;
  ti_fail : ∀ n, failure_link (deref (heap a) n) = None;
  ti_out : ∀ n s, lbl !! n = Some s →
             output (deref (heap a) n) = lit (patterns a) s
}.

(** Length of the path-label of [n]. *)
Definition depth lbl n : nat := length (default [] (lbl !! n)).

(** The failure link of [n] is set, to the state whose path-label is the
    longest proper suffix of the path-label of [n] among the path-labels. *)
Definition fail_ok h lbl n : Prop :=
  ∀ s, lbl !! n = Some s → s ≠ [] →
    ∃ m t, failure_link (deref h n) = Some m ∧ lbl !! m = Some t ∧
           longest_suffix lbl (tail s) t.

(** The output list of [n] holds the patterns that are suffixes of its
    path-label. *)
Definition out_ok h lbl (pats : list (list char)) n : Prop :=
  ∀ s, lbl !! n = Some s → output (deref h n) = out_spec pats s.

(** Invariant of the breadth-first traversal of [build_failure_links].
    [h0] is the heap on entry and [h] the current one; [popped] lists the
    root and the nodes taken off the queue so far; [cur] is the one whose
    children are being visited, [todo] those still to come. *)
Record bfs_inv h0 lbl (pats : list (list char)) h
    (popped queue : list nat) (cur : nat) (todo : dict char nat) : Prop := {
  bi_length : length h = length h0;
  bi_children : ∀ n, children (deref h n) = children (deref h0 n);
  bi_nodup : NoDup (popped ++ queue);
  bi_valid : ∀ x, x ∈ popped ++ queue → x < length h;
  bi_root : root ∈ popped;
  bi_cur : cur ∈ popped;
  bi_todo : todo `suffix_of` children (deref h cur);
  bi_mem : ∀ x, x ∈ popped ++ queue ↔
      x = root ∨
      ∃ q c, q ∈ popped ∧ goto h q c = Some x ∧ ¬ (q = cur ∧ (c, x) ∈ todo);
  bi_below : ∀ x, x < length h → depth lbl x ≤ depth lbl cur →
      x ∈ popped ++ queue;
  bi_level : ∀ x, x ∈ queue → depth lbl cur ≤ depth lbl x ≤ S (depth lbl cur);
  bi_sorted : StronglySorted (λ x y, depth lbl x ≤ depth lbl y) queue;
  bi_done : ∀ x, x ∈ popped ++ queue → fail_ok h lbl x ∧ out_ok h lbl pats x;
  bi_frame : ∀ x, x ∉ popped ++ queue → deref h x = deref h0 x
}.

(** State of the automaton after [build_failure_links]. *)
Record auto_inv (a : AhoCorasick char) lbl : Prop := {
  ai_wf : trie_wf (heap a) lbl;
  ai_pats : ∀ p, p ∈ patterns a → p ≠ [] ∧ p ∈ lbl;
  ai_fail : ∀ n, n < length (heap a) → fail_ok (heap a) lbl n;
  ai_out : ∀ n, n < length (heap a) → out_ok (heap a) lbl (patterns a) n
}.

(** ** Reference semantics of a scan *)

(** Start offset of an occurrence of [p] whose last character is at index [i]. *)
Definition start_of (i : nat) p : Z :=
  (Z.of_nat i - Z.of_nat (length p) + 1)%Z.

(** Matches reported at index [i], [w] being the text up to and including
    that index: one for every registered pattern that is a suffix of [w]. *)
Definition matches_at (pats : list (list char)) (i : nat) w : list (match_ char) :=
  t ← suffixes w; (λ _, (start_of i t, t)) <$> lit pats t.

(** The sequence of matches of a whole scan, by end position. *)
Definition scan_spec (pats : list (list char)) (text : list char)
    : list (match_ char) :=
  i ← seq 0 (length text); matches_at pats i (take (S i) text).

(** Naive sliding-window scan: the offsets at which the window of the
    length of [p] equals [p]. *)
Definition naive_scan p (text : list char) : list nat :=
  filter (λ i, take (length p) (drop i text) = p)
         (seq 0 (S (length text) - length p)).

(** One naive scan per pattern, each match tagged with its pattern. *)
Definition naive_matches (pats : list (list char)) (text : list char)
    : list (match_ char) :=
  p ← pats; (λ i, (Z.of_nat i, p)) <$> naive_scan p text.

(** The match reported for [p] at index [i], if [p] ends there. *)
Definition occurrence_at p (i : nat) w : list (match_ char) :=
  if decide (p `suffix_of` w) then [(start_of i p, p)] else [].

(** Occurrences of one pattern, found by their end position. *)
Definition end_scan p (text : list char) : list (match_ char) :=
  i ← seq 0 (length text); occurrence_at p i (take (S i) text).

(** ** The whole pipeline *)

(** [add_pattern] for each of [ps], [build_failure_links], then
    [search(text)]. *)
Definition build (fuel : nat) (ps : list (list char)) : result (AhoCorasick char) :=
  build_failure_links fuel (add_patterns ps new_automaton).

Definition run (fuel : nat) (ps : list (list char)) (text : list char)
    : result (list (match_ char)) :=
  a ← build fuel ps; search fuel a text.

(** Number of nodes of the trie of [ps]: any [fuel] at least this large
    lets every loop of [build] and of [search] run to its end. *)
Definition trie_size (ps : list (list char)) : nat :=
  length (heap (add_patterns ps new_automaton)).

(** The outcome [r] of a computation that leaves the automaton [a] as it is. *)
Definition unchanged {A} (a : AhoCorasick char) (r : result A)
    : result (A * AhoCorasick char) :=
  match r with
  | Ok x => Ok (x, a)
  | Raise e => Raise e
  | OutOfFuel => OutOfFuel
  end.

End specification.

Arguments wf_length {char _ h lbl}.
Arguments wf_root {char _ h lbl}.
Arguments wf_nodup {char _ h lbl}.
Arguments wf_depth {char _ h lbl}.
Arguments wf_keys {char _ h lbl}.
Arguments wf_edge {char _ h lbl}.
Arguments wf_parent {char _ h lbl}.
Arguments ti_wf {char _ a lbl}.
Arguments ti_pats {char _ a lbl}.
Arguments ti_fail {char _ a lbl}.
Arguments ti_out {char _ a lbl}.

Arguments bi_length {char _ h0 lbl pats h popped queue cur todo}.
Arguments bi_children {char _ h0 lbl pats h popped queue cur todo}.
Arguments bi_nodup {char _ h0 lbl pats h popped queue cur todo}.
Arguments bi_valid {char _ h0 lbl pats h popped queue cur todo}.
Arguments bi_root {char _ h0 lbl pats h popped queue cur todo}.
Arguments bi_cur {char _ h0 lbl pats h popped queue cur todo}.
Arguments bi_todo {char _ h0 lbl pats h popped queue cur todo}.
Arguments bi_mem {char _ h0 lbl pats h popped queue cur todo}.
Arguments bi_below {char _ h0 lbl pats h popped queue cur todo}.
Arguments bi_level {char _ h0 lbl pats h popped queue cur todo}.
Arguments bi_sorted {char _ h0 lbl pats h popped queue cur todo}.
Arguments bi_done {char _ h0 lbl pats h popped queue cur todo}.
Arguments bi_frame {char _ h0 lbl pats h popped queue cur todo}.
Arguments ai_wf {char _ a lbl}.
Arguments ai_pats {char _ a lbl}.
Arguments ai_fail {char _ a lbl}.
Arguments ai_out {char _ a lbl}.

(** * Further notions for the automaton *)

Section measures.
Context {char : Type}.

(** Index of the last character of a match. *)
Definition match_end (m : match_ char) : Z :=
  (m.1 + Z.of_nat (length m.2) - 1)%Z.

(** Order of two matches by end position, then by start position. *)
Definition match_le (m1 m2 : match_ char) : Prop :=
  (match_end m1 < match_end m2 ∨
   (match_end m1 = match_end m2 ∧ m1.1 ≤ m2.1))%Z.

End measures.

(** * The validation harness: [AhoCorasickMatcher]

    [load_data] (reading the CSV file with pandas), [parse_ground_truth]
    (Python literal parsing), the timing of each row and the console
    reports are outside the embedding.  A dataset is the list of its
    rows after [load_data], the ground truth of a row being the list of
    offsets that [parse_ground_truth] returns for it. *)

Module Matcher.

Record Row := mkRow {
  original_text : list ascii;
  pattern : list ascii;
  ground_truth_indexes : list Z
}.

(** An entry of [self.errors]. *)
Record ErrorCase := mkErrorCase {
  index : nat;
  pattern_shown : list ascii;
  expected : list Z;
  got : list Z;
  text_preview : list ascii
}.

(** The fields of the matcher that [build_automaton] and [validate] use. *)
Record AhoCorasickMatcher := mkMatcher {
  max_errors_to_print : Z;
  report_interval : Z;
  automaton : AhoCorasick ascii;
  errors : list ErrorCase;
  correct : nat
}.

(** [AhoCorasickMatcher(data_path, max_errors_to_print, report_interval)] *)
Definition init (max_errors report : Z) : AhoCorasickMatcher :=
  {| max_errors_to_print := max_errors; report_interval := report;
     automaton := new_automaton; errors := []; correct := 0 |}.

(** Exceptions of the harness: its own division by zero, and those of
    the automaton. *)
Inductive error := ZeroDivisionError | AutomatonError (e : exn).

Inductive outcome (A : Type) :=
  | Done (a : A)
  | Failed (e : error)
  | NoFuel.
Arguments Done {A} a.
Arguments Failed {A} e.
Arguments NoFuel {A}.

Definition of_result {A} (r : result A) : outcome A :=
  match r with
  | Ok a => Done a
  | Raise e => Failed (AutomatonError e)
  | OutOfFuel => NoFuel
  end.

Global Instance outcome_bind : MBind outcome := fun A B k m =>
  match m with
  | Done a => k a
  | Failed e => Failed e
  | NoFuel => NoFuel
  end.

(** [Series.unique()]: the distinct values in order of first appearance. *)
Fixpoint unique (l : list (list ascii)) : list (list ascii) :=
  match l with
  | [] => []
  | x :: l' => x :: filter (λ y, y ≠ x) (unique l')
  end.

(** [build_automaton] *)
Definition build_automaton (fuel : nat) (data : list Row)
    (m : AhoCorasickMatcher) : outcome AhoCorasickMatcher :=
  let unique_patterns := filter (λ p, p ≠ []) (unique (pattern <$> data)) in
  a ← of_result
         (build_failure_links fuel (add_patterns unique_patterns (automaton m)));
  Done {| max_errors_to_print := max_errors_to_print m;
          report_interval := report_interval m;
          automaton := a; errors := errors m; correct := correct m |}.

(** [sorted] on a list of integers. *)
Definition sorted (l : list Z) : list Z := merge_sort Z.le l.

(** The matches of a row in [validate]. *)
Definition row_matches (fuel : nat) (a : AhoCorasick ascii) (row : Row)
    : outcome (list Z) :=
  if decide (pattern row = []) then
    Done (handle_empty_pattern (original_text row) (ground_truth_indexes row))
  else
    search_results ← of_result (search fuel a (original_text row));
    Done ((filter (λ r : match_ ascii, r.2 = pattern row) search_results).*1).

(** [text[:100] + '...' if len(text) > 100 else text] *)
Definition preview (text : list ascii) : list ascii :=
  if decide (100 < length text) then take 100 text ++ str "..." else text.

(** ["EMPTY" if pattern == "" else f"'{pattern}'"] *)
Definition show_pattern (p : list ascii) : list ascii :=
  if decide (p = []) then str "EMPTY" else str "'" ++ p ++ str "'".

(** The body of [for idx, row in self.data.iterrows()], the clock and the
    progress line left out; the progress test still divides by
    [report_interval]. *)
Definition validate_row (fuel : nat) (idx : nat) (row : Row)
    (m : AhoCorasickMatcher) : outcome AhoCorasickMatcher :=
  let gt := ground_truth_indexes row in
  matches ← row_matches fuel (automaton m) row;
  let m' :=
    if decide (sorted matches = sorted gt) then
      {| max_errors_to_print := max_errors_to_print m;
         report_interval := report_interval m; automaton := automaton m;
         errors := errors m; correct := S (correct m) |}
    else if decide (Z.of_nat (length (errors m)) < max_errors_to_print m)%Z then
      {| max_errors_to_print := max_errors_to_print m;
         report_interval := report_interval m; automaton := automaton m;
         errors := errors m ++
           [{| index := idx; pattern_shown := show_pattern (pattern row);
               expected := gt; got := matches;
               text_preview := preview (original_text row) |}];
         correct := correct m |}
    else m in
  if decide (report_interval m = 0%Z) then Failed ZeroDivisionError
  else Done m'.

Fixpoint validate_loop (fuel : nat) (idx : nat) (rows : list Row)
    (m : AhoCorasickMatcher) : outcome AhoCorasickMatcher :=
  match rows with
  | [] => Done m
  | row :: rows' =>
      m' ← validate_row fuel idx row m;
      validate_loop fuel (S idx) rows' m'
  end.

(** [validate]: after the loop the report divides the summed times by
    the number of rows. *)
Definition validate (fuel : nat) (data : list Row) (m : AhoCorasickMatcher)
    : outcome AhoCorasickMatcher :=
  m' ← validate_loop fuel 0 data m;
  if decide (length data = 0) then Failed ZeroDivisionError else Done m'.

(** The verdict of [validate] on a row whose matches are [matches]. *)
Definition row_correct (matches : list Z) (row : Row) : Prop :=
  sorted matches = sorted (ground_truth_indexes row).

(** ** What the harness should find *)

(** The patterns that [build_automaton] registers. *)
Definition dataset_patterns (data : list Row) : list (list ascii) :=
  filter (λ p, p ≠ []) (unique (pattern <$> data)).

(** The matches of a row, stated without the automaton: the fallback of
    [handle_empty_pattern] for an empty pattern, else the offsets of the
    naive scan. *)
Definition true_matches (row : Row) : list Z :=
  if decide (pattern row = []) then
    handle_empty_pattern (original_text row) (ground_truth_indexes row)
  else Z.of_nat <$> naive_scan (pattern row) (original_text row).




End Matcher.

(** A small dataset: a row that agrees with its ground truth, a row with
    an empty pattern, and a row whose ground truth is off by one. *)
Definition sample_data : list Matcher.Row :=
  [ Matcher.mkRow (str "ushers") (str "he") [2%Z];
    Matcher.mkRow (str "abc") (str "") [];
    Matcher.mkRow (str "she") (str "she") [1%Z] ].

(** * Verification *)

Section proofs.
Context {char : Type} `{EqDecision char}.
Implicit Types (h : list (AhoCorasickNode char)) (lbl : list (list char)).
Implicit Types (s t u w p text : list char) (c : char) (n m k : nat).
Implicit Types (d : dict char nat).

(** ** Dictionaries *)

Lemma dict_get_elem d c m : dict_get c d = Some m → (c, m) ∈ d.
Proof.
  induction d as [|[k v] d IH]; simpl; [done|].
  case_decide; intros; simplify_eq; [left | right; auto].
Qed.

Lemma dict_get_None d c : dict_get c d = None ↔ c ∉ d.*1.
Proof.
  induction d as [|[k v] d IH]; simpl.
  - split; [intros _; apply not_elem_of_nil | done].
  - rewrite not_elem_of_cons, <- IH.
    destruct (decide (c = k)); [split; [done | by intros []] | tauto].
Qed.

Lemma elem_dict_get d c m : NoDup d.*1 → (c, m) ∈ d → dict_get c d = Some m.
Proof.
  induction d as [|[k v] d IH]; simpl; intros Hnd Hin.
  - by apply elem_of_nil in Hin.
  - apply NoDup_cons in Hnd as [Hk Hnd].
    apply elem_of_cons in Hin as [Heq | Hin].
    + simplify_eq. by rewrite decide_True.
    + rewrite decide_False; [auto|].
      intros ->. apply Hk, list_elem_of_fmap. by exists (k, m).
Qed.

Lemma dict_set_fresh d c m : dict_get c d = None → dict_set c m d = d ++ [(c, m)].
Proof.
  induction d as [|[k v] d IH]; simpl; [done|].
  case_decide; [done|]. intros. f_equal. auto.
Qed.

Lemma dict_get_snoc d c c' m :
  dict_get c' (d ++ [(c, m)]) =
    match dict_get c' d with
    | Some x => Some x
    | None => if decide (c' = c) then Some m else None
    end.
Proof.
  induction d as [|[k v] d IH]; simpl; [done|].
  destruct (decide (c' = k)); [done | apply IH].
Qed.

Lemma dict_mem_true d c : dict_mem c d = true ↔ is_Some (dict_get c d).
Proof. unfold dict_mem. destruct (dict_get c d); split; (done || by inversion 1). Qed.

(** ** Path labels *)

Lemma deref_lookup h n nd : h !! n = Some nd → deref h n = nd.
Proof. unfold deref. by intros ->. Qed.

Lemma deref_ge h n : length h ≤ n → deref h n = new_node.
Proof. unfold deref. intros. by rewrite lookup_ge_None_2. Qed.

Lemma goto_label h lbl n s c m :
  trie_wf h lbl → lbl !! n = Some s →
  goto h n c = Some m ↔ lbl !! m = Some (s ++ [c]).
Proof.
  intros Hwf Hn. split.
  - intros Hg. destruct (wf_edge Hwf _ _ _ Hg) as (s' & Hs' & Hm).
    by simplify_eq.
  - intros Hm. destruct (wf_parent Hwf _ _ _ Hm) as (n' & Hn' & Hg).
    by rewrite (NoDup_lookup _ _ _ _ (wf_nodup Hwf) Hn Hn').
Qed.

Lemma goto_valid h lbl n c m : trie_wf h lbl → goto h n c = Some m → m < length h.
Proof.
  intros Hwf Hg. destruct (wf_edge Hwf _ _ _ Hg) as (s & _ & Hm).
  rewrite <- (wf_length Hwf). by eapply lookup_lt_Some.
Qed.

Lemma label_inj h lbl n m s :
  trie_wf h lbl → lbl !! n = Some s → lbl !! m = Some s → n = m.
Proof. intros Hwf. apply NoDup_lookup, (wf_nodup Hwf). Qed.

Lemma label_valid h lbl n s : trie_wf h lbl → lbl !! n = Some s → n < length h.
Proof. intros Hwf Hn. rewrite <- (wf_length Hwf). by eapply lookup_lt_Some. Qed.

Lemma label_root h lbl n : trie_wf h lbl → lbl !! n = Some [] ↔ n = root.
Proof.
  intros Hwf. split.
  - intros Hn. exact (label_inj _ _ _ _ _ Hwf Hn (wf_root Hwf)).
  - intros ->. exact (wf_root Hwf).
Qed.

Lemma label_prefix_closed h lbl m s t :
  trie_wf h lbl → lbl !! m = Some (s ++ t) → ∃ n, lbl !! n = Some s.
Proof.
  intros Hwf. revert m. induction t as [|c t IH] using rev_ind; intros m Hm.
  - rewrite app_nil_r in Hm. eauto.
  - rewrite app_assoc in Hm.
    destruct (wf_parent Hwf _ _ _ Hm) as (n & Hn & _). eauto.
Qed.

Lemma walk_from_label h lbl n s0 s m :
  trie_wf h lbl → lbl !! n = Some s0 →
  walk_from h n s = Some m ↔ lbl !! m = Some (s0 ++ s).
Proof.
  intros Hwf. revert n s0. induction s as [|c s IH]; intros n s0 Hn; simpl.
  - rewrite app_nil_r. split.
    + by intros [= <-].
    + intros Hm. f_equal. eapply label_inj; eauto.
  - rewrite (cons_middle c s0 s), app_assoc. destruct (goto h n c) as [k|] eqn:Hg.
    + apply (goto_label _ _ _ _ _ _ Hwf Hn) in Hg. by apply IH.
    + split; [done|]. intros Hm.
      destruct (label_prefix_closed _ _ _ _ _ Hwf Hm) as (k & Hk).
      apply (goto_label _ _ _ _ _ _ Hwf Hn) in Hk. congruence.
Qed.

Lemma walk_label h lbl s m :
  trie_wf h lbl → walk h s = Some m ↔ lbl !! m = Some s.
Proof.
  intros Hwf. unfold walk.
  by rewrite (walk_from_label _ _ _ [] _ _ Hwf (wf_root Hwf)).
Qed.

(** Only the transitions matter. *)
Lemma trie_wf_children h h' lbl :
  length h' = length h →
  (∀ n, children (deref h' n) = children (deref h n)) →
  trie_wf h lbl → trie_wf h' lbl.
Proof.
  intros Hlen Hch [H1 H2 H3 H4 H5 H6 H7].
  assert (Hg : ∀ n c, goto h' n c = goto h n c).
  { intros. unfold goto. by rewrite Hch. }
  split; try done.
  - congruence.
  - intros n. rewrite Hch. apply H5.
  - intros n c m. rewrite Hg. apply H6.
  - intros m s c Hm. destruct (H7 _ _ _ Hm) as (n & ? & ?).
    exists n. by rewrite Hg.
Qed.

(** ** Heap updates *)

Lemma deref_snoc h k : deref (h ++ [new_node]) k = deref h k.
Proof.
  unfold deref. destruct (decide (k < length h)) as [Hk|Hk].
  - by rewrite lookup_app_l.
  - rewrite lookup_app_r, (lookup_ge_None_2 h) by lia.
    by destruct (k - length h) as [|[|?]].
Qed.

Lemma deref_alter (f : AhoCorasickNode char → AhoCorasickNode char) h i k :
  i < length h →
  deref (alter f i h) k = if decide (k = i) then f (deref h i) else deref h k.
Proof.
  intros Hi. unfold deref. case_decide as Hk.
  - subst k. rewrite list_lookup_alter_eq.
    by destruct (lookup_lt_is_Some_2 h i Hi) as [nd ->].
  - by rewrite list_lookup_alter_ne.
Qed.

(** ** Pattern identifiers by label *)

Lemma filter_ext_elem {A} (P Q : A → Prop) `{∀ x, Decision (P x)}
    `{∀ x, Decision (Q x)} (l : list A) :
  (∀ x, x ∈ l → P x ↔ Q x) → filter P l = filter Q l.
Proof.
  induction l as [|x l IH]; intros Hpq; [done|].
  rewrite !filter_cons.
  assert (P x ↔ Q x) by (apply Hpq; left).
  rewrite IH by (intros; apply Hpq; by right).
  destruct (decide (P x)), (decide (Q x)); tauto.
Qed.

Lemma lit_snoc (pats : list (list char)) p s :
  lit (pats ++ [p]) s =
    lit pats s ++ if decide (p = s) then [length pats] else [].
Proof.
  unfold lit. rewrite length_app, Nat.add_1_r, seq_S, filter_app. simpl. f_equal.
  - apply filter_ext_elem. intros k Hk%elem_of_seq.
    by rewrite lookup_app_l by lia.
  - rewrite filter_cons, filter_nil, lookup_app_r, Nat.sub_diag by lia. simpl.
    destruct (decide (p = s)); subst.
    + by rewrite decide_True.
    + rewrite decide_False; [done | congruence].
Qed.

Lemma elem_of_lit (pats : list (list char)) s k : k ∈ lit pats s ↔ pats !! k = Some s.
Proof.
  unfold lit. rewrite list_elem_of_filter, elem_of_seq. split; [tauto|].
  intros Hk. split; [done|]. apply lookup_lt_Some in Hk. lia.
Qed.

Lemma lit_nil (pats : list (list char)) s : s ∉ pats → lit pats s = [].
Proof.
  intros Hs. destruct (lit pats s) as [|k l] eqn:Hl; [done|].
  assert (Hk : k ∈ lit pats s) by (rewrite Hl; left).
  apply elem_of_lit, list_elem_of_lookup_2 in Hk. done.
Qed.

(** ** [add_pattern] grows a trie *)

Lemma trie_wf_alloc h lbl cur s c :
  trie_wf h lbl → lbl !! cur = Some s → goto h cur c = None →
  trie_wf (alter (set_child c (length h)) cur (h ++ [new_node]))
          (lbl ++ [s ++ [c]]).
Proof.
  intros Hwf Hcur Hnone.
  assert (Hlt : cur < length h) by eauto using label_valid.
  assert (Hd : ∀ k, deref (alter (set_child c (length h)) cur (h ++ [new_node])) k
                 = if decide (k = cur) then set_child c (length h) (deref h cur)
                   else deref h k).
  { intros k. rewrite deref_alter by (rewrite length_app; lia).
    by rewrite !deref_snoc. }
  assert (Hg : ∀ k c', goto (alter (set_child c (length h)) cur (h ++ [new_node])) k c'
                 = if decide (k = cur ∧ c' = c) then Some (length h)
                   else goto h k c').
  { intros k c'. unfold goto. rewrite Hd. destruct (decide (k = cur)) as [->|Hk].
    - simpl. rewrite dict_set_fresh by done. rewrite dict_get_snoc.
      unfold goto in Hnone.
      destruct (decide (c' = c)) as [->|Hc].
      + rewrite Hnone. by rewrite decide_True.
      + rewrite decide_False by tauto. by destruct (dict_get c' _).
    - rewrite decide_False by tauto. done. }
  assert (Hfresh : s ++ [c] ∉ lbl).
  { intros (m & Hm)%list_elem_of_lookup_1.
    apply (goto_label _ _ _ _ _ _ Hwf Hcur) in Hm. congruence. }
  assert (Hlen := wf_length Hwf).
  split.
  - rewrite length_alter, !length_app. simpl. lia.
  - apply lookup_app_l_Some, (wf_root Hwf).
  - apply NoDup_app. split_and!; [apply (wf_nodup Hwf) | | apply NoDup_singleton].
    intros x Hx ->%list_elem_of_singleton. done.
  - intros n s' [Hn | [Hn1 Hn2]]%lookup_app_Some.
    + by apply (wf_depth Hwf).
    + destruct (n - length lbl) as [|?] eqn:E; simplify_eq/=.
      rewrite length_app. simpl. apply (wf_depth Hwf) in Hcur. lia.
  - intros n. rewrite Hd. case_decide; [|apply (wf_keys Hwf)].
    simpl. rewrite dict_set_fresh by done. rewrite fmap_app. simpl.
    apply NoDup_app. split_and!; [apply (wf_keys Hwf) | | apply NoDup_singleton].
    intros x Hx ->%list_elem_of_singleton. by apply dict_get_None in Hnone.
  - intros n c' m. rewrite Hg. case_decide as Hc.
    + destruct Hc as [-> ->]. intros [= <-]. exists s. split.
      * by apply lookup_app_l_Some.
      * rewrite <- Hlen. by rewrite lookup_app_r, Nat.sub_diag by lia.
    + intros Hgo. destruct (wf_edge Hwf _ _ _ Hgo) as (s' & ? & ?).
      exists s'. split; by apply lookup_app_l_Some.
  - intros m s' c' [Hm | [Hm1 Hm2]]%lookup_app_Some.
    + destruct (wf_parent Hwf _ _ _ Hm) as (n & Hn & Hgo).
      exists n. split; [by apply lookup_app_l_Some|].
      rewrite Hg, decide_False; [done|]. intros [-> ->]. congruence.
    + destruct (m - length lbl) as [|?] eqn:E; simplify_eq/=.
      apply app_inj_tail in Hm2 as [-> ->].
      exists cur. split; [by apply lookup_app_l_Some|].
      rewrite Hg, decide_True by done. f_equal. lia.
Qed.

Lemma insert_path_spec p : ∀ h lbl cur s h' n,
  trie_wf h lbl → lbl !! cur = Some s → insert_path h cur p = (h', n) →
  ∃ ext, trie_wf h' (lbl ++ ext) ∧ (lbl ++ ext) !! n = Some (s ++ p) ∧
    (∀ k, failure_link (deref h' k) = failure_link (deref h k)) ∧
    (∀ k, output (deref h' k) = output (deref h k)) ∧
    (∀ k, is_end_of_pattern (deref h' k) = is_end_of_pattern (deref h k)).
Proof.
  induction p as [|c p IH]; intros h lbl cur s h' n Hwf Hcur Hins; simpl in Hins.
  - simplify_eq. exists []. rewrite !app_nil_r. done.
  - fold (goto h cur c) in Hins. destruct (goto h cur c) as [next|] eqn:Hg.
    + apply (goto_label _ _ _ _ _ _ Hwf Hcur) in Hg.
      destruct (IH _ _ _ _ _ _ Hwf Hg Hins) as (ext & ? & Hn & ?).
      exists ext. rewrite <- app_assoc in Hn. done.
    + assert (Hlt : cur < length h) by eauto using label_valid.
      pose proof (trie_wf_alloc _ _ _ _ _ Hwf Hcur Hg) as Hwf1.
      assert (Hfresh : (lbl ++ [s ++ [c]]) !! length h = Some (s ++ [c])).
      { rewrite <- (wf_length Hwf). by rewrite lookup_app_r, Nat.sub_diag by lia. }
      destruct (IH _ _ _ _ _ _ Hwf1 Hfresh Hins) as (ext & Hwf' & Hn & Hf & Ho & He).
      exists ((s ++ [c]) :: ext).
      rewrite (cons_middle _ lbl ext), app_assoc.
      replace ((s ++ [c]) ++ p) with (s ++ c :: p) in Hn
        by (by rewrite <- app_assoc).
      split_and!; [done..| | |].
      * intros k. rewrite Hf, deref_alter, !deref_snoc by (rewrite length_app; lia).
        by case_decide; subst.
      * intros k. rewrite Ho, deref_alter, !deref_snoc by (rewrite length_app; lia).
        by case_decide; subst.
      * intros k. rewrite He, deref_alter, !deref_snoc by (rewrite length_app; lia).
        by case_decide; subst.
Qed.

Lemma trie_inv_lit_fresh (a : AhoCorasick char) lbl s :
  trie_inv a lbl → s ∉ lbl → lit (patterns a) s = [].
Proof.
  intros Hinv Hs. apply lit_nil. intros Hp.
  by apply (ti_pats Hinv) in Hp as [_ Hp].
Qed.

Lemma add_pattern_inv (a : AhoCorasick char) lbl p :
  trie_inv a lbl → p ≠ [] →
  ∃ ext, trie_inv (add_pattern p a) (lbl ++ ext) ∧
         patterns (add_pattern p a) = patterns a ++ [p].
Proof.
  intros Hinv Hp. unfold add_pattern. destruct p as [|c0 p0] eqn:Ep; [done|].
  rewrite <- Ep in *. clear Ep c0 p0.
  destruct (insert_path (heap a) root p) as [h' n] eqn:Hins.
  destruct (insert_path_spec _ _ _ _ _ _ _ (ti_wf Hinv) (wf_root (ti_wf Hinv)) Hins)
    as (ext & Hwf' & Hn & Hf & Ho & He).
  simpl in Hn. exists ext. split; [|done].
  assert (Hlt : n < length h') by eauto using label_valid.
  split; simpl.
  - eapply trie_wf_children; [| |exact Hwf'].
    + by rewrite length_alter.
    + intros k. rewrite deref_alter by done. by case_decide; subst.
  - intros q [Hq | ->%list_elem_of_singleton]%elem_of_app.
    + apply (ti_pats Hinv) in Hq as [? ?]. split; [done|].
      apply elem_of_app; by left.
    + split; [done|]. by eapply list_elem_of_lookup_2.
  - intros k. rewrite deref_alter by done.
    case_decide; subst; simpl; rewrite Hf; apply (ti_fail Hinv).
  - intros k s Hk. rewrite lit_snoc.
    assert (Hold : output (deref h' k) = lit (patterns a) s).
    { rewrite Ho. apply lookup_app_Some in Hk as [Hk | [Hk1 Hk2]].
      - by apply (ti_out Hinv).
      - rewrite deref_ge by (rewrite <- (wf_length (ti_wf Hinv)); lia).
        symmetry. apply (trie_inv_lit_fresh _ _ _ Hinv).
        pose proof (wf_nodup Hwf') as Hnd. apply NoDup_app in Hnd as (_ & Hnd & _).
        intros Hs. apply (Hnd _ Hs). by eapply list_elem_of_lookup_2. }
    rewrite deref_alter by done. case_decide as Hkn; simpl.
    + subst k. rewrite Hold. simplify_eq. by rewrite decide_True.
    + rewrite Hold. rewrite decide_False, app_nil_r; [done|].
      intros ->. apply Hkn. eapply label_inj; eauto.
Qed.

Lemma new_automaton_inv : trie_inv (new_automaton (char:=char)) [[]].
Proof.
  assert (Hd : ∀ k, deref (heap (new_automaton (char:=char))) k = new_node).
  { intros [|[|k]]; done. }
  split; [split|..]; simpl.
  - done.
  - done.
  - apply NoDup_singleton.
  - intros [|n] s; [intros [= <-]; simpl; lia | done].
  - intros n. rewrite Hd. simpl. apply NoDup_nil_2.
  - intros n c m. unfold goto. by rewrite Hd.
  - intros [|m] s c Hm; [|done]. simplify_eq/=. by destruct s.
  - intros p Hp. by apply elem_of_nil in Hp.
  - intros n. by rewrite Hd.
  - intros n s _. by rewrite Hd.
Qed.

Lemma add_pattern_nil (a : AhoCorasick char) : add_pattern [] a = a.
Proof. done. Qed.

Lemma add_patterns_inv ps : ∀ (a : AhoCorasick char) lbl,
  trie_inv a lbl →
  ∃ ext, trie_inv (add_patterns ps a) (lbl ++ ext) ∧
         patterns (add_patterns ps a) = patterns a ++ filter (λ p, p ≠ []) ps.
Proof.
  induction ps as [|p ps IH]; intros a lbl Hinv; simpl.
  - exists []. by rewrite !app_nil_r.
  - destruct (decide (p = [])) as [->|Hp].
    + rewrite add_pattern_nil. rewrite filter_cons_False by (by intros ?).
      by apply IH.
    + destruct (add_pattern_inv _ _ _ Hinv Hp) as (ext1 & Hinv1 & Hp1).
      destruct (IH _ _ Hinv1) as (ext2 & Hinv2 & Hp2).
      exists (ext1 ++ ext2). rewrite app_assoc. split; [done|].
      rewrite Hp2, Hp1, filter_cons_True by done.
      by rewrite <- app_assoc.
Qed.

(** ** Suffixes and longest suffixes *)

Lemma suffix_of_shorter u t w :
  u `suffix_of` w → t `suffix_of` w → length u ≤ length t → u `suffix_of` t.
Proof.
  intros Hu Ht Hlen. destruct (suffix_weak_total _ _ _ Hu Ht) as [?|Htu]; [done|].
  by rewrite (suffix_length_eq _ _ Htu Hlen).
Qed.

Lemma proper_suffix_tail u s : u `suffix_of` s → u ≠ s → u `suffix_of` tail s.
Proof.
  intros Hu Hne. destruct s as [|a s]; simpl.
  - by apply suffix_nil_inv in Hu.
  - destruct u as [|b u]; [apply suffix_nil|].
    by apply suffix_cons_inv in Hu as [?|?].
Qed.

Lemma suffix_tail s : tail s `suffix_of` s.
Proof. destruct s; [done|]. by apply suffix_cons_r. Qed.

Lemma longest_suffix_unique lbl w t t' :
  longest_suffix lbl w t → longest_suffix lbl w t' → t = t'.
Proof.
  intros (Hs & Hin & Hmax) (Hs' & Hin' & Hmax').
  apply suffix_length_eq; [|by apply Hmax].
  eapply suffix_of_shorter; eauto.
Qed.

Lemma longest_suffix_nil h lbl : trie_wf h lbl → longest_suffix lbl [] [].
Proof.
  intros Hwf. split_and!; [done | |].
  - eapply list_elem_of_lookup_2, (wf_root Hwf).
  - by intros u ->%suffix_nil_inv _.
Qed.

Lemma longest_suffix_length lbl w t : longest_suffix lbl w t → length t ≤ length w.
Proof. intros (Hs & _). by apply suffix_length. Qed.

Lemma label_elem_prefix h lbl s t : trie_wf h lbl → s ++ t ∈ lbl → s ∈ lbl.
Proof.
  intros Hwf (m & Hm)%list_elem_of_lookup_1.
  destruct (label_prefix_closed _ _ _ _ _ Hwf Hm) as (n & Hn).
  by eapply list_elem_of_lookup_2.
Qed.

(** One step of the automaton on the level of labels: from the longest
    suffix [s] of [w], fall back to the longest suffix [t] of [s] that can be
    extended by [c]; its extension (or the empty label) is the longest
    suffix of [w ++ [c]]. *)
Lemma longest_suffix_step h lbl w s t c :
  trie_wf h lbl →
  longest_suffix lbl w s →
  t `suffix_of` s →
  (∀ u, u `suffix_of` s → u ++ [c] ∈ lbl → length u ≤ length t) →
  (t ++ [c] ∉ lbl → t = []) →
  longest_suffix lbl (w ++ [c]) (if decide (t ++ [c] ∈ lbl) then t ++ [c] else []).
Proof.
  intros Hwf (Hsw & Hsin & Hsmax) Hts Htmax Hroot.
  assert (Hcand : ∀ u', u' ++ [c] `suffix_of` w ++ [c] → u' ++ [c] ∈ lbl →
                    length u' ≤ length t).
  { intros u' Hu Hin. apply Htmax; [|done].
    apply suffix_snoc_inv_2 in Hu.
    eapply suffix_of_shorter; [done..|].
    apply Hsmax; [done|]. by eapply label_elem_prefix. }
  case_decide as Hin.
  - split_and!; [|done|].
    + apply suffix_snoc. by etrans.
    + intros u Hu Huin. destruct u as [|c' u _] using rev_ind; [simpl; lia|].
      pose proof (suffix_snoc_inv_1 _ _ _ _ Hu) as ->.
      rewrite !length_app. simpl. specialize (Hcand _ Hu Huin). lia.
  - split_and!; [apply suffix_nil | |].
    + eapply list_elem_of_lookup_2, (wf_root Hwf).
    + intros u Hu Huin. destruct u as [|c' u _] using rev_ind; [done|].
      pose proof (suffix_snoc_inv_1 _ _ _ _ Hu) as ->.
      specialize (Hcand _ Hu Huin). pose proof (Hroot Hin) as ->.
      destruct u; [done | simpl in Hcand; lia].
Qed.

(** ** Output specification *)

Lemma out_spec_cons (pats : list (list char)) c s :
  out_spec pats (c :: s) = lit pats (c :: s) ++ out_spec pats s.
Proof. done. Qed.

Lemma out_spec_nil (pats : list (list char)) : out_spec pats [] = lit pats [].
Proof. unfold out_spec. simpl. by rewrite app_nil_r. Qed.

Lemma out_spec_longest_suffix lbl (pats : list (list char)) w t :
  (∀ p, p ∈ pats → p ∈ lbl) →
  longest_suffix lbl w t → out_spec pats w = out_spec pats t.
Proof.
  intros Hsub. induction w as [|a w IH]; intros (Hs & Hin & Hmax).
  - by apply suffix_nil_inv in Hs as ->.
  - destruct (decide (t = a :: w)) as [->|Hne]; [done|].
    pose proof (proper_suffix_tail _ _ Hs Hne) as Hs'. simpl in Hs'.
    rewrite out_spec_cons, lit_nil.
    + apply IH. split_and!; [done..|].
      intros u Hu. apply Hmax. by apply suffix_cons_r.
    + intros Hp%Hsub. specialize (Hmax _ (reflexivity _) Hp).
      apply suffix_length in Hs'. simpl in Hmax. lia.
Qed.

Lemma elem_of_suffixes s t : t ∈ suffixes s ↔ t `suffix_of` s.
Proof.
  induction s as [|a s IH]; simpl.
  - rewrite list_elem_of_singleton. split; [by intros ->|apply suffix_nil_inv].
  - rewrite elem_of_cons, IH. split.
    + intros [->|?]; [done | by apply suffix_cons_r].
    + intros Ht. destruct (decide (t = a :: s)); [by left|right].
      by apply (proper_suffix_tail _ (a :: s)).
Qed.

Lemma elem_of_out_spec (pats : list (list char)) s k :
  k ∈ out_spec pats s ↔ ∃ p, pats !! k = Some p ∧ p `suffix_of` s.
Proof.
  unfold out_spec. rewrite list_elem_of_bind. split.
  - intros (t & Hk%elem_of_lit & Ht%elem_of_suffixes). eauto.
  - intros (p & Hk & Hp). exists p. by rewrite elem_of_lit, elem_of_suffixes.
Qed.

(** ** The fallback loop *)

Lemma depth_label lbl n s : lbl !! n = Some s → depth lbl n = length s.
Proof. unfold depth. by intros ->. Qed.

Lemma follow_failure_spec h lbl c fuel : ∀ n s,
  trie_wf h lbl →
  (∀ k, k < length h → depth lbl k ≤ length s → fail_ok h lbl k) →
  lbl !! n = Some s → length s ≤ fuel →
  ∃ g t, follow_failure fuel h (Some n) c = Ok g ∧ lbl !! g = Some t ∧
    t `suffix_of` s ∧
    (∀ u, u `suffix_of` s → u ++ [c] ∈ lbl → length u ≤ length t) ∧
    (goto h g c = None → g = root).
Proof.
  induction fuel as [|fuel IH]; intros n s Hwf Hfail Hn Hfuel.
  - destruct s; [|simpl in Hfuel; lia].
    apply (label_root _ _ _ Hwf) in Hn as ->. exists root, [].
    split_and!; [done | exact (wf_root Hwf) | done | | done].
    by intros u ->%suffix_nil_inv _.
  - simpl. destruct (bool_decide (n = root) || dict_mem c (children (deref h n)))
      eqn:Hstop.
    + exists n, s. split_and!; [done..| |].
      * intros u Hu _. by apply suffix_length.
      * intros Hnone. apply orb_true_iff in Hstop as [Hr%bool_decide_eq_true|Hm];
          [done|]. apply dict_mem_true in Hm as [? Hm].
        unfold goto in Hnone. congruence.
    + apply orb_false_iff in Hstop as [Hr%bool_decide_eq_false Hm].
      assert (Hnone : goto h n c = None).
      { unfold goto. destruct (dict_get _ _) eqn:E; [|done].
        unfold dict_mem in Hm. by rewrite E in Hm. }
      assert (Hs : s ≠ []).
      { intros ->. by apply Hr, (label_root _ _ _ Hwf). }
      assert (Hfn : fail_ok h lbl n).
      { apply Hfail; [by eapply label_valid|].
        by rewrite (depth_label _ _ _ Hn). }
      destruct (Hfn s Hn Hs) as (m & t0 & -> & Hm0 & Hls).
      pose proof (longest_suffix_length _ _ _ Hls) as Hlen.
      assert (Htl : length (tail s) < length s) by (destruct s; [done|simpl; lia]).
      destruct (IH m t0 Hwf) as (g & t & Hff & Hg & Hts & Hmax & Hroot);
        [|done|lia|].
      { intros k Hk Hd. apply Hfail; [done|lia]. }
      destruct Hls as (Ht0s & Ht0in & Ht0max).
      exists g, t. split_and!; [done..| | |done].
      * etrans; [done|]. etrans; [done|]. apply suffix_tail.
      * intros u Hu Huc. apply Hmax; [|done].
        assert (u ≠ s).
        { intros ->. apply list_elem_of_lookup_1 in Huc as (k & Hk).
          apply (goto_label _ _ _ _ _ _ Hwf Hn) in Hk. congruence. }
        pose proof (proper_suffix_tail _ _ Hu ltac:(done)).
        eapply suffix_of_shorter; [done..|].
        apply Ht0max; [done|]. by eapply label_elem_prefix.
Qed.

(** The transition taken after the fallback loop. *)
Lemma transition_spec h lbl c fuel n s w :
  trie_wf h lbl →
  (∀ k, k < length h → depth lbl k ≤ length s → fail_ok h lbl k) →
  lbl !! n = Some s → length s ≤ fuel →
  longest_suffix lbl w s →
  ∃ g n' s', follow_failure fuel h (Some n) c = Ok g ∧
    default g (goto h g c) = n' ∧ default root (goto h g c) = n' ∧
    lbl !! n' = Some s' ∧ longest_suffix lbl (w ++ [c]) s'.
Proof.
  intros Hwf Hfail Hn Hfuel Hls.
  destruct (follow_failure_spec _ _ c _ _ _ Hwf Hfail Hn Hfuel)
    as (g & t & Hff & Hg & Hts & Hmax & Hroot).
  pose proof (longest_suffix_step _ _ _ _ _ c Hwf Hls Hts Hmax) as Hstep.
  destruct (goto h g c) as [n'|] eqn:Hgo.
  - pose proof Hgo as Hn'. apply (goto_label _ _ _ _ _ _ Hwf Hg) in Hn'.
    exists g, n', (t ++ [c]). rewrite Hgo. split_and!; [done..|].
    rewrite decide_True in Hstep by (by eapply list_elem_of_lookup_2).
    apply Hstep. intros Hnot. exfalso. apply Hnot. by eapply list_elem_of_lookup_2.
  - specialize (Hroot eq_refl) as ->.
    pose proof (wf_root Hwf) as Hr. simplify_eq.
    exists root, root, []. rewrite Hgo. split_and!; [done..|exact (wf_root Hwf)|].
    rewrite decide_False in Hstep.
    + by apply Hstep.
    + intros (k & Hk)%list_elem_of_lookup_1.
      apply (goto_label _ _ _ _ _ _ Hwf (wf_root Hwf)) in Hk. congruence.
Qed.

(** ** Breadth-first construction of the failure links *)

Section build.
Context (a0 : AhoCorasick char) (lbl : list (list char)).
Context (Hinv0 : trie_inv a0 lbl).

Local Abbreviation h0 := (heap a0).
Local Abbreviation pats := (patterns a0).
Local Abbreviation inv := (bfs_inv h0 lbl pats).

Lemma lit_root : lit pats [] = [].
Proof. apply lit_nil. intros Hp. by apply (ti_pats Hinv0) in Hp as [? _]. Qed.

Lemma pats_labels p : p ∈ pats → p ∈ lbl.
Proof. intros Hp. by apply (ti_pats Hinv0) in Hp as [_ ?]. Qed.

Lemma bfs_inv_wf h popped queue cur todo :
  inv h popped queue cur todo → trie_wf h lbl.
Proof.
  intros Hi. eapply trie_wf_children; [apply (bi_length Hi)|apply (bi_children Hi)|].
  apply (ti_wf Hinv0).
Qed.

Lemma valid_label h n : trie_wf h lbl → n < length h → ∃ s, lbl !! n = Some s.
Proof.
  intros Hwf Hn. apply lookup_lt_is_Some_2. by rewrite (wf_length Hwf).
Qed.

Lemma bfs_inv_init : inv h0 [root] [] root (children (deref h0 root)).
Proof.
  pose proof (ti_wf Hinv0) as Hwf.
  split; try done.
  - simpl. apply NoDup_singleton.
  - intros x ->%list_elem_of_singleton. eapply label_valid, (wf_root Hwf). done.
  - by apply list_elem_of_singleton.
  - by apply list_elem_of_singleton.
  - intros x. simpl. rewrite list_elem_of_singleton. split; [by left|].
    intros [?|(p & c & ->%list_elem_of_singleton & Hg & Hnot)]; [done|].
    exfalso. apply Hnot. split; [done|]. by apply dict_get_elem.
  - intros x Hx Hd. simpl. apply list_elem_of_singleton.
    destruct (valid_label _ _ Hwf Hx) as [s Hs].
    rewrite (depth_label _ _ _ Hs), (depth_label _ _ _ (wf_root Hwf)) in Hd.
    destruct s; [|simpl in Hd; lia]. by apply (label_root _ _ _ Hwf).
  - intros x Hx. by apply elem_of_nil in Hx.
  - constructor.
  - intros x ->%list_elem_of_singleton. split.
    + intros s Hs Hne. pose proof (wf_root Hwf). by simplify_eq.
    + intros s Hs. pose proof (wf_root Hwf). simplify_eq.
      by rewrite (ti_out Hinv0 _ _ Hs), out_spec_nil.
Qed.

Lemma bfs_todo_head h popped queue cur c m todo :
  inv h popped queue cur ((c, m) :: todo) →
  goto h cur c = Some m ∧ c ∉ todo.*1.
Proof.
  intros Hi. pose proof (bfs_inv_wf _ _ _ _ _ Hi) as Hwf.
  destruct (bi_todo Hi) as [pre Hpre].
  pose proof (wf_keys Hwf cur) as Hnd. rewrite Hpre in Hnd.
  split.
  - apply elem_dict_get; rewrite Hpre; [done|].
    apply elem_of_app. right. left.
  - rewrite fmap_app in Hnd. apply NoDup_app in Hnd as (_ & _ & Hnd).
    simpl in Hnd. by apply NoDup_cons in Hnd as [? _].
Qed.

(** Visiting one child: it joins the queue, with its failure link and
    output set. *)
Lemma bfs_inv_enqueue h h2 popped queue cur c m todo :
  inv h popped queue cur ((c, m) :: todo) →
  length h2 = length h →
  (∀ n, children (deref h2 n) = children (deref h n)) →
  (∀ x, x ≠ m → deref h2 x = deref h x) →
  fail_ok h2 lbl m → out_ok h2 lbl pats m →
  inv h2 popped (queue ++ [m]) cur todo.
Proof.
  intros Hi Hlen Hch Hother Hfm Hom.
  pose proof (bfs_inv_wf _ _ _ _ _ Hi) as Hwf.
  destruct (bfs_todo_head _ _ _ _ _ _ _ Hi) as [Hgo Hc].
  assert (Hcur : cur < length h).
  { apply (bi_valid Hi), elem_of_app. left. apply (bi_cur Hi). }
  destruct (valid_label _ _ Hwf Hcur) as [sc Hsc].
  pose proof Hgo as Hm. apply (goto_label _ _ _ _ _ _ Hwf Hsc) in Hm.
  assert (Hg2 : ∀ n c', goto h2 n c' = goto h n c').
  { intros. unfold goto. by rewrite Hch. }
  assert (Hfresh : m ∉ popped ++ queue).
  { intros [Hr | (p & c' & Hp & Hg & Hnot)]%(bi_mem Hi).
    - subst m. pose proof (wf_root Hwf). simplify_eq. by destruct sc.
    - apply Hnot. destruct (wf_edge Hwf _ _ _ Hg) as (s' & Hs' & Hm').
      rewrite Hm in Hm'. injection Hm' as [-> ->]%app_inj_tail.
      split; [by eapply label_inj | left]. }
  assert (Hdm : depth lbl m = S (depth lbl cur)).
  { rewrite (depth_label _ _ _ Hm), (depth_label _ _ _ Hsc), length_app.
    simpl. lia. }
  assert (Hin : ∀ x, x ∈ popped ++ queue ++ [m] ↔ x ∈ popped ++ queue ∨ x = m).
  { intros x. rewrite app_assoc, elem_of_app, list_elem_of_singleton. done. }
  split.
  - rewrite Hlen. apply (bi_length Hi).
  - intros n. rewrite Hch. apply (bi_children Hi).
  - rewrite app_assoc. apply NoDup_app. split_and!.
    + apply (bi_nodup Hi).
    + intros x Hx ->%list_elem_of_singleton. done.
    + apply NoDup_singleton.
  - intros x [Hx | ->]%Hin; rewrite Hlen.
    + by apply (bi_valid Hi).
    + by eapply goto_valid.
  - apply (bi_root Hi).
  - apply (bi_cur Hi).
  - rewrite Hch. eapply suffix_cons_l, (bi_todo Hi).
  - intros x. rewrite Hin, (bi_mem Hi). split.
    + intros [[?|(p & c' & Hp & Hg & Hnot)] | ->]; [by left| |].
      * right. exists p, c'. rewrite Hg2. split_and!; [done..|].
        intros [? ?]. apply Hnot. split; [done|by right].
      * right. exists cur, c. rewrite Hg2. split_and!; [apply (bi_cur Hi)|done|].
        intros [_ Hx]. apply Hc, list_elem_of_fmap. by exists (c, m).
    + intros [?|(p & c' & Hp & Hg & Hnot)]; [by left; left|].
      rewrite Hg2 in Hg.
      destruct (decide (p = cur ∧ (c', x) = (c, m))) as [[-> [= -> ->]]|Hne].
      * by right.
      * left. right. exists p, c'. split_and!; [done..|].
        intros [-> [?|?]%elem_of_cons]; [by apply Hne | by apply Hnot].
  - intros x Hx Hd. apply Hin. left. apply (bi_below Hi); [by rewrite <- Hlen|done].
  - intros x [Hx | ->%list_elem_of_singleton]%elem_of_app.
    + by apply (bi_level Hi).
    + lia.
  - apply StronglySorted_app. split_and!.
    + intros x1 x2 Hx1 ->%list_elem_of_singleton. rewrite Hdm.
      by apply (bi_level Hi).
    + apply (bi_sorted Hi).
    + repeat constructor.
  - intros x [Hx | ->]%Hin; [|done].
    assert (x ≠ m) by (by intros ->).
    destruct (bi_done Hi x Hx) as [Hf Ho]. split.
    + intros s Hs Hne. rewrite Hother by done. by apply Hf.
    + intros s Hs. rewrite Hother by done. by apply Ho.
  - intros x Hx. rewrite Hin in Hx. rewrite Hother by tauto.
    apply (bi_frame Hi). tauto.
Qed.

Lemma bfs_child h popped queue cur c m todo :
  inv h popped queue cur ((c, m) :: todo) →
  ∃ sc, lbl !! cur = Some sc ∧ lbl !! m = Some (sc ++ [c]) ∧
        (m ∉ popped ++ queue) ∧ m < length h ∧
        output (deref h m) = lit pats (sc ++ [c]).
Proof.
  intros Hi. pose proof (bfs_inv_wf _ _ _ _ _ Hi) as Hwf.
  destruct (bfs_todo_head _ _ _ _ _ _ _ Hi) as [Hgo Hc].
  assert (Hcur : cur < length h).
  { apply (bi_valid Hi), elem_of_app. left. apply (bi_cur Hi). }
  destruct (valid_label _ _ Hwf Hcur) as [sc Hsc].
  pose proof Hgo as Hm. apply (goto_label _ _ _ _ _ _ Hwf Hsc) in Hm.
  assert (Hfresh : m ∉ popped ++ queue).
  { intros [Hr | (q & c' & Hq & Hg & Hnot)]%(bi_mem Hi).
    - subst m. pose proof (wf_root Hwf). simplify_eq. by destruct sc.
    - apply Hnot. destruct (wf_edge Hwf _ _ _ Hg) as (s' & Hs' & Hm').
      rewrite Hm in Hm'. injection Hm' as [-> ->]%app_inj_tail.
      split; [by eapply label_inj | left]. }
  exists sc. split_and!; [done..|by eapply goto_valid|].
  rewrite (bi_frame Hi) by done. by apply (ti_out Hinv0).
Qed.

(** Taking the next node off the queue. *)
Lemma bfs_inv_pop h popped queue cur cur' :
  inv h popped (cur' :: queue) cur [] →
  inv h (popped ++ [cur']) queue cur' (children (deref h cur')).
Proof.
  intros Hi. pose proof (bfs_inv_wf _ _ _ _ _ Hi) as Hwf.
  assert (Hin : ∀ x, x ∈ (popped ++ [cur']) ++ queue ↔ x ∈ popped ++ cur' :: queue).
  { intros x. by rewrite <- app_assoc. }
  assert (Hcur' : cur' ∉ popped).
  { intros Hx. pose proof (bi_nodup Hi) as Hnd.
    apply NoDup_app in Hnd as (_ & Hnd & _). apply (Hnd _ Hx). left. }
  pose proof (bi_sorted Hi) as Hsort.
  apply StronglySorted_cons in Hsort as [Hhead Hsort].
  rewrite Forall_forall in Hhead.
  assert (Hlev : depth lbl cur ≤ depth lbl cur' ≤ S (depth lbl cur)).
  { apply (bi_level Hi). left. }
  split.
  - apply (bi_length Hi).
  - apply (bi_children Hi).
  - rewrite <- app_assoc. apply (bi_nodup Hi).
  - intros x Hx%Hin. by apply (bi_valid Hi).
  - apply elem_of_app. left. apply (bi_root Hi).
  - apply elem_of_app. right. left.
  - done.
  - intros x. rewrite Hin, (bi_mem Hi). split.
    + intros [?|(q & c & Hq & Hg & _)]; [by left|]. right.
      exists q, c. split_and!; [apply elem_of_app; by left | done |].
      intros [-> _]. done.
    + intros [?|(q & c & Hq & Hg & Hnot)]; [by left|]. right.
      exists q, c. split_and!; [|done|].
      * apply elem_of_app in Hq as [?| ->%list_elem_of_singleton]; [done|].
        exfalso. apply Hnot. split; [done|]. by apply dict_get_elem.
      * intros [_ Hx]. by apply elem_of_nil in Hx.
  - intros x Hx Hd. apply Hin.
    destruct (decide (depth lbl x ≤ depth lbl cur)) as [?|Hdeep];
      [by apply (bi_below Hi)|].
    destruct (valid_label _ _ Hwf Hx) as [s Hs].
    rewrite (depth_label _ _ _ Hs) in Hd, Hdeep.
    destruct s as [|c s' _] using rev_ind; [simpl in Hdeep; lia|].
    rewrite length_app in Hd, Hdeep. simpl in Hd, Hdeep.
    destruct (wf_parent Hwf _ _ _ Hs) as (q & Hq & Hg).
    assert (Hqd : depth lbl q = length s') by (by apply depth_label).
    assert (Hqin : q ∈ popped ++ cur' :: queue).
    { apply (bi_below Hi); [by eapply label_valid | lia]. }
    apply (bi_mem Hi). right. exists q, c. split_and!; [|done|].
    + apply elem_of_app in Hqin as [?|Hqq]; [done|]. exfalso.
      apply elem_of_cons in Hqq as [->|Hqq]; [lia|].
      specialize (Hhead _ Hqq). simpl in Hhead. lia.
    + intros [_ Hnil]. by apply elem_of_nil in Hnil.
  - intros x Hx. split; [by apply Hhead|].
    assert (depth lbl x ≤ S (depth lbl cur)); [|lia].
    apply (bi_level Hi). by right.
  - done.
  - intros x Hx%Hin. by apply (bi_done Hi).
  - intros x Hx. apply (bi_frame Hi). by rewrite <- Hin.
Qed.

Lemma bfs_inv_length h popped queue cur todo :
  inv h popped queue cur todo → length (popped ++ queue) ≤ length h.
Proof.
  intros Hi. rewrite <- (length_seq (length h) 0).
  apply submseteq_length, NoDup_submseteq; [apply (bi_nodup Hi)|].
  intros x Hx%(bi_valid Hi). apply elem_of_seq. lia.
Qed.

(** The first loop: the children of the root. *)
Lemma init_queue_inv todo : ∀ h queue h' queue',
  inv h [root] queue root todo →
  init_queue h todo queue = (h', queue') →
  inv h' [root] queue' root [].
Proof.
  induction todo as [|[c m] todo IH]; intros h queue h' queue' Hi Hrun;
    simpl in Hrun.
  - by simplify_eq.
  - pose proof (bfs_inv_wf _ _ _ _ _ Hi) as Hwf.
    destruct (bfs_child _ _ _ _ _ _ _ Hi) as (sc & Hsc & Hm & Hfresh & Hlt & Hout).
    pose proof (wf_root Hwf) as Hroot. simplify_eq. simpl in Hm.
    eapply IH; [|exact Hrun].
    eapply bfs_inv_enqueue; [exact Hi|..].
    + by rewrite length_alter.
    + intros n. rewrite deref_alter by done. by case_decide; subst.
    + intros x Hx. rewrite deref_alter by done. by rewrite decide_False.
    + intros s Hs Hne. simplify_eq. exists root, [].
      rewrite deref_alter, decide_True by done. simpl.
      split_and!; [done..|]. by eapply longest_suffix_nil.
    + intros s Hs. simplify_eq.
      rewrite deref_alter, decide_True by done. simpl.
      rewrite Hout. simpl. by rewrite out_spec_cons, out_spec_nil, lit_root, app_nil_r.
Qed.

(** The inner loop: the children of a node taken off the queue. *)
Lemma link_children_inv fuel popped cur todo : ∀ h queue,
  cur ≠ root →
  inv h popped queue cur todo →
  length h ≤ fuel →
  ∃ h' queue', link_children fuel h cur todo queue = Ok (h', queue') ∧
               inv h' popped queue' cur [].
Proof.
  induction todo as [|[c m] todo IH]; intros h queue Hcur Hi Hfuel; simpl.
  - eauto.
  - pose proof (bfs_inv_wf _ _ _ _ _ Hi) as Hwf.
    destruct (bfs_child _ _ _ _ _ _ _ Hi) as (sc & Hsc & Hm & Hfresh & Hlt & Hout).
    assert (Hsc_ne : sc ≠ []).
    { intros ->. by apply Hcur, (label_root _ _ _ Hwf). }
    assert (HcurE : cur ∈ popped ++ queue).
    { apply elem_of_app. left. apply (bi_cur Hi). }
    destruct (bi_done Hi _ HcurE) as [Hfcur _].
    destruct (Hfcur _ Hsc Hsc_ne) as (f & tf & Hfl & Hf & Hls).
    pose proof (longest_suffix_length _ _ _ Hls) as Hlen_tf.
    assert (Hlen_tl : S (length (tail sc)) = length sc).
    { destruct sc; [done|simpl; lia]. }
    pose proof (wf_depth Hwf _ _ Hsc) as Hdepth.
    assert (Hcur_lt : cur < length h) by (by apply (bi_valid Hi)).
    destruct (transition_spec h lbl c fuel f tf (tail sc) Hwf)
      as (g & n' & s' & Hff & _ & Htarget & Hn' & Hls'); [|done|lia|done|].
    { intros k Hk Hd. apply (bi_done Hi), (bi_below Hi); [done|].
      rewrite (depth_label _ _ _ Hsc). lia. }
    rewrite Hfl, Hff. simpl. unfold goto in Htarget. rewrite Htarget.
    pose proof (longest_suffix_length _ _ _ Hls') as Hlen_s'.
    rewrite length_app in Hlen_s'. simpl in Hlen_s'.
    assert (Hn'm : n' ≠ m).
    { intros ->. rewrite Hm in Hn'. simplify_eq.
      rewrite length_app in Hlen_s'. simpl in Hlen_s'. lia. }
    assert (Hn'E : n' ∈ popped ++ queue).
    { apply (bi_below Hi); [by eapply label_valid|].
      rewrite (depth_label _ _ _ Hsc), (depth_label _ _ _ Hn'). lia. }
    destruct (bi_done Hi _ Hn'E) as [_ Hon'].
    set (h1 := alter (set_failure_link (Some n')) m h).
    assert (Hlen1 : length h1 = length h) by apply length_alter.
    assert (Hd2 : ∀ x, deref (alter (extend_output (output (deref h1 n'))) m h1) x
                   = if decide (x = m)
                     then extend_output (out_spec pats s')
                            (set_failure_link (Some n') (deref h m))
                     else deref h x).
    { intros x. rewrite deref_alter by lia. unfold h1.
      rewrite !deref_alter by done. rewrite (decide_False (P:=n' = m)) by done.
      rewrite (Hon' _ Hn'), (decide_True (P:=m = m)) by done.
      by destruct (decide (x = m)). }
    apply IH; [done| |by rewrite length_alter, Hlen1].
    eapply bfs_inv_enqueue; [exact Hi|..].
    + by rewrite length_alter.
    + intros n. rewrite Hd2. by case_decide; subst.
    + intros x Hx. rewrite Hd2. by rewrite decide_False.
    + intros s Hs Hne. rewrite Hm in Hs. injection Hs as <-.
      exists n', s'. rewrite Hd2, decide_True by done. simpl.
      split_and!; [done..|]. by destruct sc.
    + intros s Hs. rewrite Hm in Hs. injection Hs as <-.
      rewrite Hd2, decide_True by done. simpl. rewrite Hout.
      destruct sc as [|a sc]; [done|]. simpl. rewrite out_spec_cons. f_equal.
      symmetry. eapply out_spec_longest_suffix; [apply pats_labels|done].
Qed.

(** The main loop. *)
Lemma bfs_loop_inv fuel n : ∀ h popped queue cur,
  inv h popped queue cur [] →
  length h ≤ n + length popped →
  length h ≤ fuel →
  ∃ h' popped' cur', bfs_loop n fuel h queue = Ok h' ∧
                     inv h' popped' [] cur' [].
Proof.
  induction n as [|n IH]; intros h popped queue cur Hi Hn Hfuel.
  - destruct queue as [|cur' queue]; [simpl; eauto|].
    pose proof (bfs_inv_length _ _ _ _ _ Hi) as Hlen.
    rewrite length_app in Hlen. simpl in Hlen, Hn. lia.
  - destruct queue as [|cur' queue]; [simpl; eauto|]. simpl.
    assert (Hcur' : cur' ≠ root).
    { intros ->. pose proof (bi_nodup Hi) as Hnd.
      apply NoDup_app in Hnd as (_ & Hnd & _).
      apply (Hnd _ (bi_root Hi)). left. }
    apply bfs_inv_pop in Hi.
    destruct (link_children_inv fuel _ _ _ _ _ Hcur' Hi Hfuel)
      as (h' & queue' & -> & Hi').
    simpl. eapply IH; [exact Hi'| |].
    + rewrite (bi_length Hi'), <- (bi_length Hi), length_app. simpl. lia.
    + by rewrite (bi_length Hi'), <- (bi_length Hi).
Qed.

(** When the queue is empty every node has been visited. *)
Lemma bfs_inv_all h popped cur x :
  inv h popped [] cur [] → x < length h → x ∈ popped.
Proof.
  intros Hi Hx. pose proof (bfs_inv_wf _ _ _ _ _ Hi) as Hwf.
  destruct (valid_label _ _ Hwf Hx) as [s Hs]. clear Hx.
  revert x Hs. induction s as [|c s IH] using rev_ind; intros x Hs.
  - apply (label_root _ _ _ Hwf) in Hs as ->. apply (bi_root Hi).
  - destruct (wf_parent Hwf _ _ _ Hs) as (q & Hq & Hg).
    specialize (IH _ Hq).
    assert (Hin : x ∈ popped ++ []); [|by rewrite app_nil_r in Hin].
    apply (bi_mem Hi). right. exists q, c. split_and!; [done..|].
    intros [_ Hnil]. by apply elem_of_nil in Hnil.
Qed.

Lemma build_failure_links_inv fuel :
  length h0 ≤ fuel →
  ∃ a, build_failure_links fuel a0 = Ok a ∧ auto_inv a lbl ∧
       patterns a = pats ∧ length (heap a) = length h0.
Proof.
  intros Hfuel. unfold build_failure_links.
  destruct (init_queue h0 (children (deref h0 root)) []) as [h1 q1] eqn:Hinit.
  pose proof (init_queue_inv _ _ _ _ _ bfs_inv_init Hinit) as Hi1.
  destruct (bfs_loop_inv fuel fuel h1 [root] q1 root Hi1)
    as (h' & popped' & cur' & -> & Hi').
  { rewrite (bi_length Hi1). simpl. lia. }
  { by rewrite (bi_length Hi1). }
  simpl. eexists. split; [done|]. split_and!; [|done|apply (bi_length Hi')].
  assert (Hall : ∀ n, n < length h' → n ∈ popped' ++ []).
  { intros n Hn. rewrite app_nil_r. by eapply bfs_inv_all. }
  split; simpl.
  - by eapply bfs_inv_wf.
  - apply (ti_pats Hinv0).
  - intros n Hn. by apply (bi_done Hi'), Hall.
  - intros n Hn. by apply (bi_done Hi'), Hall.
Qed.

End build.

(** ** The scan *)

Lemma emit_app (pats : list (list char)) i ids1 : ∀ ids2 ms,
  emit pats i (ids1 ++ ids2) ms = emit pats i ids1 ms ≫= emit pats i ids2.
Proof.
  induction ids1 as [|k ids1 IH]; intros ids2 ms; simpl; [done|].
  destruct (pats !! k); [apply IH|done].
Qed.

Lemma emit_lit (pats : list (list char)) i t : ∀ ids ms,
  (∀ k, k ∈ ids → pats !! k = Some t) →
  emit pats i ids ms = Ok (ms ++ ((λ _, (start_of i t, t)) <$> ids)).
Proof.
  induction ids as [|k ids IH]; intros ms Hids; simpl.
  - by rewrite app_nil_r.
  - rewrite (Hids k) by left. rewrite IH by (intros; apply Hids; by right).
    by rewrite <- app_assoc.
Qed.

Lemma emit_out_spec (pats : list (list char)) i w ms :
  emit pats i (out_spec pats w) ms = Ok (ms ++ matches_at pats i w).
Proof.
  unfold out_spec, matches_at. revert ms.
  induction (suffixes w) as [|t ts IH]; intros ms; simpl.
  - by rewrite app_nil_r.
  - rewrite emit_app, (emit_lit _ _ t) by (by intros k ?%elem_of_lit).
    simpl. rewrite IH. by rewrite <- app_assoc.
Qed.

Lemma matches_at_ext (pats : list (list char)) i i' w w' :
  i = i' → w = w' → matches_at pats i w = matches_at pats i' w'.
Proof. by intros -> ->. Qed.

Lemma search_loop_cons fuel (a : AhoCorasick char) cur i c text ms :
  search_loop fuel a cur i (c :: text) ms =
    node ← follow_failure fuel (heap a) (Some cur) c;
    ms' ← emit (patterns a) i
            (output (deref (heap a) (default node (goto (heap a) node c)))) ms;
    search_loop fuel a (default node (goto (heap a) node c)) (S i) text ms'.
Proof.
  simpl. destruct (follow_failure _ _ _ _) as [node| |]; [|done..]. simpl.
  unfold goto. by destruct (output _).
Qed.

Lemma search_loop_spec (a : AhoCorasick char) lbl fuel text : ∀ w cur s ms,
  auto_inv a lbl → length (heap a) ≤ fuel →
  lbl !! cur = Some s → longest_suffix lbl w s →
  search_loop fuel a cur (length w) text ms =
    Ok (ms ++ (j ← seq 0 (length text);
               matches_at (patterns a) (length w + j) (w ++ take (S j) text))).
Proof.
  induction text as [|c text IH]; intros w cur s ms Hinv Hfuel Hcur Hls.
  - simpl. by rewrite app_nil_r.
  - pose proof (ai_wf Hinv) as Hwf.
    pose proof (wf_depth Hwf _ _ Hcur) as Hd.
    pose proof (label_valid _ _ _ _ Hwf Hcur) as Hlt.
    destruct (transition_spec (heap a) lbl c fuel cur s w Hwf)
      as (g & n' & s' & Hff & Htarget & _ & Hn' & Hls'); [|done|lia|done|].
    { intros k Hk _. by apply (ai_fail Hinv). }
    rewrite search_loop_cons, Hff. simpl. rewrite Htarget.
    pose proof (label_valid _ _ _ _ Hwf Hn') as Hlt'.
    rewrite (ai_out Hinv _ Hlt' _ Hn').
    rewrite <- (out_spec_longest_suffix lbl _ (w ++ [c]) s');
      [|intros p Hp; by apply (ai_pats Hinv)|done].
    rewrite emit_out_spec. simpl.
    replace (S (length w)) with (length (w ++ [c]))
      by (rewrite length_app; simpl; lia).
    rewrite (IH (w ++ [c]) n' s') by done.
    f_equal. rewrite <- app_assoc. f_equal. f_equal.
    + apply matches_at_ext; [lia|]. by rewrite take_0.
    + rewrite <- fmap_S_seq, list_fmap_bind. apply list_bind_ext; [|done].
      intros j. simpl. apply matches_at_ext.
      * rewrite length_app. simpl. lia.
      * by rewrite <- app_assoc.
Qed.

Lemma search_spec (a : AhoCorasick char) lbl fuel text :
  auto_inv a lbl → length (heap a) ≤ fuel →
  search fuel a text = Ok (scan_spec (patterns a) text).
Proof.
  intros Hinv Hfuel. unfold search, scan_spec.
  pose proof (ai_wf Hinv) as Hwf.
  pose proof (search_loop_spec a lbl fuel text [] root [] [] Hinv Hfuel
                (wf_root Hwf) (longest_suffix_nil _ _ Hwf)) as Hrun.
  simpl in Hrun. by rewrite Hrun.
Qed.

(** ** From the reference semantics to naive scans *)

Lemma bind_nil_all {A B} (f : A → list B) (l : list A) :
  (∀ x, x ∈ l → f x = []) → l ≫= f = [].
Proof.
  induction l as [|x l IH]; intros Hf; [done|].
  rewrite bind_cons, Hf by left. simpl. apply IH. intros; apply Hf; by right.
Qed.

Lemma bind_add_perm {A B} (f g : A → list B) (l : list A) :
  l ≫= (λ x, f x ++ g x) ≡ₚ (l ≫= f) ++ (l ≫= g).
Proof.
  induction l as [|x l IH]; [done|].
  rewrite !bind_cons, IH, <- !app_assoc. apply Permutation_app_head.
  rewrite !app_assoc. apply Permutation_app_tail, Permutation_app_comm.
Qed.

Lemma bind_indicator {A B} `{EqDecision A} (g : A → B) (x : A) (l : list A) :
  NoDup l →
  l ≫= (λ y, if decide (x = y) then [g y] else []) =
    if decide (x ∈ l) then [g x] else [].
Proof.
  induction l as [|y l IH]; intros Hnd; [done|].
  apply NoDup_cons in Hnd as [Hy Hnd]. rewrite bind_cons, IH by done.
  destruct (decide (x = y)) as [->|Hxy].
  - rewrite (decide_False (P:=y ∈ l)), (decide_True (P:=y ∈ y :: l)); [done|left|done].
  - simpl. destruct (decide (x ∈ l)).
    + by rewrite decide_True by (by right).
    + rewrite decide_False; [done|]. by intros [?|?]%elem_of_cons.
Qed.

Lemma NoDup_suffixes s : NoDup (suffixes s).
Proof.
  induction s as [|a s IH]; simpl; [apply NoDup_singleton|].
  apply NoDup_cons. split; [|done].
  intros Hs%elem_of_suffixes%suffix_length. simpl in Hs. lia.
Qed.

Lemma occurrence_at_bind p i w :
  occurrence_at p i w =
    suffixes w ≫= λ t, if decide (p = t) then [(start_of i t, t)] else [].
Proof.
  rewrite (bind_indicator (λ t, (start_of i t, t))) by apply NoDup_suffixes.
  unfold occurrence_at. apply decide_ext. symmetry. apply elem_of_suffixes.
Qed.

Lemma matches_at_snoc (pats : list (list char)) p i w :
  matches_at (pats ++ [p]) i w ≡ₚ matches_at pats i w ++ occurrence_at p i w.
Proof.
  rewrite occurrence_at_bind. unfold matches_at.
  rewrite <- bind_add_perm.
  erewrite list_bind_ext; [done| |done].
  intros t. simpl. rewrite lit_snoc, fmap_app. f_equal. by case_decide.
Qed.

Lemma matches_at_nil i w : matches_at [] i w = [].
Proof. unfold matches_at. apply bind_nil_all. done. Qed.

Lemma matches_at_single p i w : matches_at [p] i w = occurrence_at p i w.
Proof.
  rewrite occurrence_at_bind. unfold matches_at.
  apply list_bind_ext; [|done]. intros t.
  change [p] with ([] ++ [p]). rewrite lit_snoc. simpl. by case_decide.
Qed.

Lemma scan_spec_snoc (pats : list (list char)) p text :
  scan_spec (pats ++ [p]) text ≡ₚ scan_spec pats text ++ end_scan p text.
Proof.
  unfold scan_spec, end_scan. rewrite <- bind_add_perm.
  induction (seq 0 (length text)) as [|i l IH]; [done|].
  rewrite !bind_cons, IH. apply Permutation_app_tail, matches_at_snoc.
Qed.

Lemma scan_spec_nil text : scan_spec [] text = [].
Proof. unfold scan_spec. apply bind_nil_all. intros. apply matches_at_nil. Qed.

Lemma scan_spec_single p text : scan_spec [p] text = end_scan p text.
Proof.
  unfold scan_spec, end_scan. apply list_bind_ext; [|done].
  intros. apply matches_at_single.
Qed.

Lemma scan_spec_perm (pats : list (list char)) text :
  scan_spec pats text ≡ₚ pats ≫= λ p, end_scan p text.
Proof.
  induction pats as [|p pats IH] using rev_ind.
  - by rewrite scan_spec_nil.
  - by rewrite scan_spec_snoc, bind_app, bind_singleton, IH.
Qed.

Lemma fmap_filter_bind {A B} (P : A → Prop) `{∀ x, Decision (P x)}
    (g : A → B) (l : list A) :
  g <$> filter P l = l ≫= λ x, if decide (P x) then [g x] else [].
Proof.
  induction l as [|x l IH]; [done|].
  rewrite filter_cons, bind_cons, <- IH. by destruct (decide (P x)).
Qed.

Lemma occurrence_at_short p i w : length w < length p → occurrence_at p i w = [].
Proof.
  intros Hlen. unfold occurrence_at. rewrite decide_False; [done|].
  intros Hs%suffix_length. lia.
Qed.

Lemma suffix_window p text j :
  j + length p ≤ length text →
  p `suffix_of` take (j + length p) text ↔ take (length p) (drop j text) = p.
Proof.
  intros Hfit. rewrite <- take_take_drop.
  assert (Hlen : length (take (length p) (drop j text)) = length p).
  { rewrite length_take, length_drop. lia. }
  split.
  - intros Hs. symmetry. apply suffix_length_eq; [|lia].
    eapply suffix_of_shorter; [done| |lia]. by apply suffix_app_r.
  - intros Hp. rewrite Hp. by apply suffix_app_r.
Qed.

(** Finding the occurrences of a non-empty pattern by their last
    character or by their first one gives the same list. *)
Lemma end_scan_naive p text :
  p ≠ [] → end_scan p text = (λ i, (Z.of_nat i, p)) <$> naive_scan p text.
Proof.
  intros Hp. unfold end_scan, naive_scan.
  destruct (length p) as [|q] eqn:Hq; [by destruct p|].
  rewrite fmap_filter_bind.
  destruct (decide (S q ≤ length text)) as [Hfit|Hlong].
  - replace (length text) with (q + (length text - q)) at 1 by lia.
    replace (S (length text) - S q) with (length text - q) by lia.
    rewrite seq_app, bind_app, bind_nil_all; simpl.
    + rewrite <- (Nat.add_0_r q) at 1. rewrite <- fmap_add_seq, list_fmap_bind.
      apply Forall_bind_ext, Forall_forall. intros j Hj%elem_of_seq. simpl.
      unfold occurrence_at.
      replace (S (q + j)) with (j + length p) by lia.
      assert (Hwin := suffix_window p text j). rewrite Hq in Hwin at 1.
      specialize (Hwin ltac:(lia)). rewrite (decide_ext _ _ _ _ Hwin).
      rewrite Hq. case_decide; [|done]. do 2 f_equal.
      unfold start_of. lia.
    + intros i Hi%elem_of_seq. apply occurrence_at_short.
      rewrite length_take. lia.
  - replace (S (length text) - S q) with 0 by lia. simpl.
    apply bind_nil_all. intros i Hi%elem_of_seq. apply occurrence_at_short.
    rewrite length_take. lia.
Qed.

Lemma scan_spec_naive (pats : list (list char)) text :
  (∀ p, p ∈ pats → p ≠ []) →
  scan_spec pats text ≡ₚ naive_matches pats text.
Proof.
  intros Hne. rewrite scan_spec_perm. unfold naive_matches.
  erewrite Forall_bind_ext; [done|].
  apply Forall_forall. intros p Hp. by apply end_scan_naive, Hne.
Qed.

(** ** The pipeline *)

Lemma add_patterns_trie_inv (ps : list (list char)) :
  ∃ lbl, trie_inv (add_patterns ps new_automaton) lbl ∧
         patterns (add_patterns ps new_automaton) = filter (λ p, p ≠ []) ps.
Proof.
  destruct (add_patterns_inv ps _ _ new_automaton_inv) as (ext & Hinv & Hp).
  eauto.
Qed.

Lemma build_spec (ps : list (list char)) fuel :
  trie_size ps ≤ fuel →
  ∃ a lbl, build fuel ps = Ok a ∧ auto_inv a lbl ∧
           patterns a = filter (λ p, p ≠ []) ps ∧
           length (heap a) = trie_size ps.
Proof.
  intros Hfuel. destruct (add_patterns_trie_inv ps) as (lbl & Hinv & Hp).
  destruct (build_failure_links_inv _ _ Hinv fuel Hfuel) as (a & Hb & Ha & Hpa & Hl).
  exists a, lbl. by rewrite Hpa, Hp.
Qed.

Lemma run_spec (ps : list (list char)) fuel text :
  trie_size ps ≤ fuel →
  run fuel ps text = Ok (scan_spec (filter (λ p, p ≠ []) ps) text).
Proof.
  intros Hfuel. unfold run.
  destruct (build_spec ps fuel Hfuel) as (a & lbl & -> & Ha & Hp & Hl).
  simpl. rewrite (search_spec a lbl) by (done || lia). by rewrite Hp.
Qed.

Lemma filter_nonempty_id (ps : list (list char)) :
  (∀ p, p ∈ ps → p ≠ []) → filter (λ p, p ≠ []) ps = ps.
Proof.
  induction ps as [|p ps IH]; intros Hne; [done|].
  rewrite filter_cons_True by (apply Hne; left).
  f_equal. apply IH. intros; apply Hne; by right.
Qed.

Lemma insert_path_length p : ∀ h cur,
  length (insert_path h cur p).1 ≤ length h + length p.
Proof.
  induction p as [|c p IH]; intros h cur; simpl; [lia|].
  destruct (dict_get c _).
  - etrans; [apply IH|lia].
  - etrans; [apply IH|]. rewrite length_alter, length_app. simpl. lia.
Qed.

Lemma add_pattern_length (a : AhoCorasick char) p :
  length (heap (add_pattern p a)) ≤ length (heap a) + length p.
Proof.
  unfold add_pattern. destruct p as [|c p]; [lia|].
  pose proof (insert_path_length (c :: p) (heap a) root) as Hl.
  destruct (insert_path _ _ _) as [h n]. simpl in *. by rewrite length_alter.
Qed.

Lemma trie_size_single p : trie_size [p] ≤ S (length p).
Proof. unfold trie_size. simpl. apply (add_pattern_length new_automaton). Qed.

(** ** [search] reads the automaton only *)

Lemma follow_failure_st_unchanged fuel (a : AhoCorasick char) c : ∀ node,
  follow_failure_st fuel node c a =
    unchanged a (follow_failure fuel (heap a) node c).
Proof.
  induction fuel as [|fuel IH]; intros [n|]; simpl; try done.
  - unfold st_bind, load. by destruct (_ || _).
  - unfold st_bind, load. destruct (_ || _); [done|]. apply IH.
Qed.

Lemma emit_st_unchanged (a : AhoCorasick char) i ids : ∀ ms,
  emit_st i ids ms a = unchanged a (emit (patterns a) i ids ms).
Proof.
  induction ids as [|k ids IH]; intros ms; simpl; [done|].
  unfold st_bind, load_pattern. destruct (patterns a !! k); [apply IH|done].
Qed.

Lemma search_loop_st_cons fuel (a : AhoCorasick char) cur i c text ms :
  search_loop_st fuel cur i (c :: text) ms a =
    match follow_failure_st fuel (Some cur) c a with
    | Ok (node, a1) =>
        let cur' := default node (goto (heap a1) node c) in
        match emit_st i (output (deref (heap a1) cur')) ms a1 with
        | Ok (ms', a2) => search_loop_st fuel cur' (S i) text ms' a2
        | Raise e => Raise e
        | OutOfFuel => OutOfFuel
        end
    | Raise e => Raise e
    | OutOfFuel => OutOfFuel
    end.
Proof.
  simpl. unfold st_bind at 1.
  destruct (follow_failure_st _ _ _ _) as [[node a1]| |]; [|done..].
  unfold st_bind, load, goto. by destruct (output _).
Qed.

Lemma search_loop_st_unchanged fuel (a : AhoCorasick char) text : ∀ cur i ms,
  search_loop_st fuel cur i text ms a =
    unchanged a (search_loop fuel a cur i text ms).
Proof.
  induction text as [|c text IH]; intros cur i ms; [done|].
  rewrite search_loop_st_cons, search_loop_cons, follow_failure_st_unchanged.
  destruct (follow_failure _ _ _ _) as [node| |]; simpl; [|done..].
  rewrite emit_st_unchanged.
  destruct (emit _ _ _ _) as [ms'| |]; simpl; [apply IH|done..].
Qed.

Lemma search_st_unchanged fuel (a : AhoCorasick char) text :
  search_st fuel text a = unchanged a (search fuel a text).
Proof. apply search_loop_st_unchanged. Qed.

(** ** No lookup of a pattern goes out of bounds *)

Lemma follow_failure_no_index_error fuel h c : ∀ node,
  follow_failure fuel h node c ≠ Raise IndexError.
Proof.
  induction fuel as [|fuel IH]; intros [n|]; simpl; try done.
  - by destruct (_ || _).
  - destruct (_ || _); [done|]. apply IH.
Qed.

Lemma emit_in_bounds (pats : list (list char)) i ids : ∀ ms,
  (∀ k, k ∈ ids → k < length pats) → ∃ ms', emit pats i ids ms = Ok ms'.
Proof.
  induction ids as [|k ids IH]; intros ms Hids; simpl; [eauto|].
  destruct (lookup_lt_is_Some_2 pats k) as [p ->]; [apply Hids; left|].
  apply IH. intros; apply Hids; by right.
Qed.

Lemma search_loop_no_index_error fuel (a : AhoCorasick char) text : ∀ cur i ms,
  (∀ n k, k ∈ output (deref (heap a) n) → k < length (patterns a)) →
  search_loop fuel a cur i text ms ≠ Raise IndexError.
Proof.
  induction text as [|c text IH]; intros cur i ms Hout; [done|].
  rewrite search_loop_cons.
  pose proof (follow_failure_no_index_error fuel (heap a) c (Some cur)) as Hff.
  destruct (follow_failure _ _ _ _) as [node|e|]; simpl; [|congruence|done].
  edestruct (emit_in_bounds (patterns a) i) as [ms' ->]; [apply Hout|].
  simpl. by apply IH.
Qed.

(** ** Re-inserting a pattern *)

Lemma insert_path_existing p : ∀ h cur n,
  walk_from h cur p = Some n → insert_path h cur p = (h, n).
Proof.
  induction p as [|c p IH]; intros h cur n; simpl.
  - by intros [= ->].
  - unfold goto. destruct (dict_get c _); [apply IH|done].
Qed.

Lemma walk_from_children h h' p : ∀ n,
  (∀ k, children (deref h' k) = children (deref h k)) →
  walk_from h' n p = walk_from h n p.
Proof.
  induction p as [|c p IH]; intros n Hch; simpl; [done|].
  unfold goto. rewrite Hch. destruct (dict_get c _); [by apply IH|done].
Qed.

Lemma permutation_pair {A} (x : A) (l : list A) : l ≡ₚ [x; x] → l = [x; x].
Proof.
  intros Hl. pose proof (Permutation_length Hl) as Hlen.
  assert (Hall : ∀ y, y ∈ l → y = x).
  { intros y Hy. rewrite Hl in Hy.
    by apply elem_of_cons in Hy as [?|?%list_elem_of_singleton]. }
  destruct l as [|y [|z [|? ?]]]; try done.
  by rewrite (Hall y), (Hall z) by (repeat constructor).
Qed.

Lemma naive_scan_self p : p ≠ [] → naive_scan p p = [0].
Proof.
  intros Hp. unfold naive_scan.
  replace (S (length p) - length p) with 1 by lia. simpl.
  rewrite filter_cons_True, filter_nil; [done|].
  simpl. by rewrite take_ge.
Qed.

(** ** Supporting facts for the main theorems *)

Lemma naive_scan_occurs p text i :
  i ∈ naive_scan p text ↔ ∃ t1 t2, text = t1 ++ p ++ t2 ∧ length t1 = i.
Proof.
  unfold naive_scan. rewrite list_elem_of_filter, elem_of_seq. split.
  - intros [Hwin Hi]. exists (take i text), (drop (length p) (drop i text)).
    split.
    + rewrite <- Hwin at 1. by rewrite !take_drop.
    + rewrite length_take. lia.
  - intros (t1 & t2 & -> & <-). split.
    + by rewrite drop_app_length, take_app_length.
    + rewrite !length_app. lia.
Qed.

Lemma run_single p text fuel :
  p ≠ [] → trie_size [p] ≤ fuel →
  run fuel [p] text = Ok ((λ i, (Z.of_nat i, p)) <$> naive_scan p text).
Proof.
  intros Hp Hfuel. rewrite run_spec by done.
  rewrite filter_cons_True, filter_nil by done.
  by rewrite scan_spec_single, end_scan_naive.
Qed.

Lemma run_naive (ps : list (list char)) text fuel :
  (∀ p, p ∈ ps → p ≠ []) → trie_size ps ≤ fuel →
  ∃ ms, run fuel ps text = Ok ms ∧ ms ≡ₚ naive_matches ps text.
Proof.
  intros Hne Hfuel. eexists. split; [by apply run_spec|].
  rewrite filter_nonempty_id by done. by apply scan_spec_naive.
Qed.

Lemma pattern_depth_bound (ps : list (list char)) p :
  p ∈ ps → S (length p) ≤ trie_size ps.
Proof.
  intros Hp. destruct (add_patterns_trie_inv ps) as (lbl & Hinv & Hpats).
  pose proof (ti_wf Hinv) as Hwf. unfold trie_size.
  destruct (decide (p = [])) as [->|Hne].
  - simpl. eapply label_valid, (wf_root Hwf). done.
  - assert (Hin : p ∈ patterns (add_patterns ps new_automaton)).
    { rewrite Hpats. by apply list_elem_of_filter. }
    apply (ti_pats Hinv) in Hin as [_ (n & Hn)%list_elem_of_lookup_1].
    pose proof (wf_depth Hwf _ _ Hn). pose proof (label_valid _ _ _ _ Hwf Hn). lia.
Qed.

Lemma bind_concat {A B} (f : A → list B) (l : list A) :
  l ≫= f = concat (f <$> l).
Proof. induction l as [|x l IH]; [done|]. by rewrite bind_cons, IH. Qed.

Lemma built_fail_walk (a : AhoCorasick char) lbl n s :
  auto_inv a lbl → n ≠ root → walk (heap a) s = Some n →
  ∃ m t, failure_link (deref (heap a) n) = Some m ∧ walk (heap a) t = Some m ∧
         t `suffix_of` s ∧ length t < length s ∧
         ∀ u, u `suffix_of` s → u ≠ s → is_Some (walk (heap a) u) →
              length u ≤ length t.
Proof.
  intros Hinv Hn Hwalk. pose proof (ai_wf Hinv) as Hwf.
  apply (walk_label _ _ _ _ Hwf) in Hwalk.
  assert (Hs : s ≠ []).
  { intros ->. by apply Hn, (label_root _ _ _ Hwf). }
  destruct (ai_fail Hinv n (label_valid _ _ _ _ Hwf Hwalk) s Hwalk Hs)
    as (m & t & Hfl & Hm & Hts & Htin & Hmax).
  exists m, t. split_and!; [done|by apply (walk_label _ _ _ _ Hwf)| | |].
  - etrans; [done|apply suffix_tail].
  - apply suffix_length in Hts. destruct s; [done|simpl in *; lia].
  - intros u Hu Hne [k Hk]. apply (walk_label _ _ _ _ Hwf) in Hk.
    apply Hmax; [by apply proper_suffix_tail|by eapply list_elem_of_lookup_2].
Qed.

(** * Main theorems *)

(** C1. Single-pattern correctness: for a non-empty pattern [P] and any
    text [T], building the automaton on [[P]] and searching [T] returns
    the offsets of the naive sliding-window scan of [T] against [P], in
    the same order and each tagged with [P]; and those offsets are
    exactly the positions at which [P] occurs in [T]. *)
Theorem single_pattern_matches_naive (P T : list char) (fuel : nat) :
  P ≠ [] → length P < fuel →
  run fuel [P] T = Ok ((λ i, (Z.of_nat i, P)) <$> naive_scan P T) ∧
  ∀ i, i ∈ naive_scan P T ↔ ∃ T1 T2, T = T1 ++ P ++ T2 ∧ length T1 = i.
Proof.
  intros HP Hfuel. split; [|apply naive_scan_occurs].
  apply run_single; [done|]. pose proof (trie_size_single P). lia.
Qed.

(** C2. Multi-pattern superposition: for non-empty patterns [ps] the
    matches of the automaton built on all of them are, as a multiset, the
    union of the naive single-pattern scans, equally the union of the
    results of the automata built on each pattern alone, and they do not
    depend on the order in which the patterns were inserted. *)
Theorem multi_pattern_superposition (ps : list (list char)) (T : list char)
    (fuel : nat) :
  (∀ p, p ∈ ps → p ≠ []) → trie_size ps ≤ fuel →
  ∃ ms, run fuel ps T = Ok ms ∧
    ms ≡ₚ naive_matches ps T ∧
    (∃ mss, Forall2 (λ p ms1, run fuel [p] T = Ok ms1) ps mss ∧
            ms ≡ₚ concat mss) ∧
    ∀ ps' fuel', ps' ≡ₚ ps → trie_size ps' ≤ fuel' →
      ∃ ms', run fuel' ps' T = Ok ms' ∧ ms' ≡ₚ ms.
Proof.
  intros Hne Hfuel.
  destruct (run_naive ps T fuel Hne Hfuel) as (ms & Hrun & Hms).
  exists ms. split_and!; [done..| |].
  - exists ((λ p, (λ i, (Z.of_nat i, p)) <$> naive_scan p T) <$> ps). split.
    + apply Forall2_fmap_r, Forall_Forall2_diag, Forall_forall.
      intros p Hp. apply run_single; [by apply Hne|].
      pose proof (pattern_depth_bound ps p Hp).
      pose proof (trie_size_single p). lia.
    + by rewrite Hms, <- bind_concat.
  - intros ps' fuel' Hperm Hfuel'.
    destruct (run_naive ps' T fuel') as (ms' & Hrun' & Hms'); [|done|].
    { intros p Hp. apply Hne. by rewrite <- Hperm. }
    exists ms'. split; [done|]. rewrite Hms', Hms. unfold naive_matches.
    by rewrite Hperm.
Qed.

(** C3. After [build_failure_links], the failure link of every non-root
    state [n], of path-label [s], is the state whose path-label [t] is the
    longest proper suffix of [s] that is the path-label of a state; path
    labels identify states, so that state is unique. *)
Theorem failure_link_longest_proper_suffix (ps : list (list char)) (fuel : nat) :
  trie_size ps ≤ fuel →
  ∃ a, build fuel ps = Ok a ∧
    ∀ n, n < length (heap a) → n ≠ root →
      ∃ s m t,
        walk (heap a) s = Some n ∧ (∀ s', walk (heap a) s' = Some n → s' = s) ∧
        failure_link (deref (heap a) n) = Some m ∧
        walk (heap a) t = Some m ∧ (∀ m', walk (heap a) t = Some m' → m' = m) ∧
        t `suffix_of` s ∧ t ≠ s ∧
        ∀ u, u `suffix_of` s → u ≠ s → is_Some (walk (heap a) u) →
             length u ≤ length t.
Proof.
  intros Hfuel. destruct (build_spec ps fuel Hfuel) as (a & lbl & Hb & Hinv & _).
  exists a. split; [done|]. intros n Hn Hroot.
  pose proof (ai_wf Hinv) as Hwf.
  destruct (valid_label lbl _ _ Hwf Hn) as [s Hs].
  apply (walk_label _ _ _ _ Hwf) in Hs.
  destruct (built_fail_walk a lbl n s Hinv Hroot Hs)
    as (m & t & Hfl & Hm & Hts & Hlen & Hmax).
  exists s, m, t. split_and!; [done| |done|done| |done| |done].
  - intros s' Hs'. apply (walk_label _ _ _ _ Hwf) in Hs, Hs'. congruence.
  - intros m' Hm'. congruence.
  - intros ->. lia.
Qed.

(** C5. Inserting a non-empty pattern a second time registers a second
    identifier, allocates no state and changes nothing but the terminal
    state of the pattern, whose output list then ends with both
    identifiers; and the automaton holding a pattern twice reports it
    twice at offset 0 when the text is the pattern itself. *)
Theorem duplicate_pattern_reported_twice (ps : list (list char))
    (p : list char) :
  p ≠ [] →
  let a := add_patterns ps new_automaton in
  let a1 := add_pattern p a in
  let a2 := add_pattern p a1 in
  let id1 := length (patterns a) in
  let id2 := S (length (patterns a)) in
  (∃ n, walk (heap a1) p = Some n ∧ walk (heap a2) p = Some n ∧
        patterns a2 = patterns a ++ [p; p] ∧
        heap a2 = alter (mark_end id2) n (heap a1) ∧
        length (heap a2) = length (heap a1) ∧
        output (deref (heap a2) n) = output (deref (heap a) n) ++ [id1; id2] ∧
        is_end_of_pattern (deref (heap a2) n) = true) ∧
  ∀ fuel, trie_size [p; p] ≤ fuel →
    run fuel [p; p] p = Ok [(0%Z, p); (0%Z, p)].
Proof.
  intros Hp a a1 a2 id1 id2. split.
  - destruct (add_patterns_trie_inv ps) as (lbl & Hinv & _). fold a in Hinv.
    pose proof (ti_wf Hinv) as Hwf.
    destruct (insert_path (heap a) root p) as [h' n] eqn:Hins.
    destruct (insert_path_spec _ _ _ _ _ _ _ Hwf (wf_root Hwf) Hins)
      as (ext & Hwf' & Hn & _ & Hout & _). simpl in Hn.
    assert (Hlt : n < length h') by (by eapply label_valid).
    assert (Ha1 : a1 = {| heap := alter (mark_end id1) n h';
                          patterns := patterns a ++ [p] |}).
    { unfold a1, add_pattern. rewrite Hins. by destruct p. }
    assert (Hch1 : ∀ k, children (deref (heap a1) k) = children (deref h' k)).
    { intros k. rewrite Ha1. simpl. rewrite deref_alter by done.
      by case_decide; subst. }
    assert (Hw1 : walk (heap a1) p = Some n).
    { unfold walk. rewrite (walk_from_children h') by done.
      by apply (walk_label _ _ _ _ Hwf'). }
    assert (Ha2 : a2 = {| heap := alter (mark_end id2) n (heap a1);
                          patterns := (patterns a ++ [p]) ++ [p] |}).
    { unfold a2, add_pattern.
      rewrite (insert_path_existing _ _ _ _ Hw1). rewrite Ha1. simpl.
      rewrite length_app. simpl. replace (length (patterns a) + 1) with id2
        by (unfold id2; lia). by destruct p. }
    assert (Hlt1 : n < length (heap a1)).
    { rewrite Ha1. simpl. by rewrite length_alter. }
    exists n. split_and!; [done|..].
    + unfold walk. rewrite (walk_from_children (heap a1)); [done|].
      intros k. rewrite Ha2. simpl. rewrite deref_alter by done.
      by case_decide; subst.
    + rewrite Ha2. simpl. by rewrite <- app_assoc.
    + by rewrite Ha2.
    + rewrite Ha2. simpl. by rewrite length_alter.
    + rewrite Ha2. simpl. rewrite deref_alter, decide_True by done.
      rewrite Ha1. simpl. rewrite deref_alter, decide_True by done.
      simpl. by rewrite Hout, <- app_assoc.
    + rewrite Ha2. simpl. by rewrite deref_alter, decide_True by done.
  - intros fuel Hfuel. rewrite run_spec by done. f_equal.
    rewrite !filter_cons_True, filter_nil by done.
    apply permutation_pair. rewrite scan_spec_naive.
    + unfold naive_matches. simpl. by rewrite naive_scan_self.
    + by intros q [->|[->|?%elem_of_nil]%elem_of_cons]%elem_of_cons.
Qed.

(** C6. On a built automaton a failure link leads to a strictly shallower
    state, so the fallback loop started at a state of depth [d] ends within
    [d] steps at the root or at a state with a transition on the
    character, and [search] returns on every text. *)
Theorem search_fallback_terminates (ps : list (list char)) (fuel : nat) :
  trie_size ps ≤ fuel →
  ∃ a, build fuel ps = Ok a ∧
    (∀ n s, n ≠ root → walk (heap a) s = Some n →
       ∃ m t, failure_link (deref (heap a) n) = Some m ∧
              walk (heap a) t = Some m ∧ length t < length s) ∧
    (∀ n s c steps, walk (heap a) s = Some n → length s ≤ steps →
       ∃ g, follow_failure steps (heap a) (Some n) c = Ok g ∧
            (g = root ∨ is_Some (goto (heap a) g c))) ∧
    (∀ text fuel', length (heap a) ≤ fuel' →
       ∃ ms, search fuel' a text = Ok ms).
Proof.
  intros Hfuel. destruct (build_spec ps fuel Hfuel) as (a & lbl & Hb & Hinv & _).
  pose proof (ai_wf Hinv) as Hwf.
  exists a. split_and!; [done|..].
  - intros n s Hn Hs.
    destruct (built_fail_walk a lbl n s Hinv Hn Hs) as (m & t & ? & ? & _ & ? & _).
    eauto.
  - intros n s c steps Hs Hsteps. apply (walk_label _ _ _ _ Hwf) in Hs.
    destruct (follow_failure_spec (heap a) lbl c steps n s Hwf)
      as (g & t & Hff & _ & _ & _ & Hroot); [|done..|].
    { intros k Hk _. by apply (ai_fail Hinv). }
    exists g. split; [done|].
    destruct (goto (heap a) g c); [right; eauto | left; by apply Hroot].
  - intros text fuel' Hfuel'. eexists. by eapply search_spec.
Qed.

(** C7. [add_pattern("")] leaves the automaton as it is: no state is
    created or modified and no identifier is registered. *)
Theorem add_empty_pattern_noop (a : AhoCorasick char) :
  add_pattern [] a = a ∧
  heap (add_pattern [] a) = heap a ∧
  patterns (add_pattern [] a) = patterns a.
Proof. done. Qed.

(** C8. [search] does not mutate the automaton: run as a method on a
    built automaton it returns the automaton unchanged together with the
    matches, and a second call returns the same matches. *)
Theorem search_does_not_mutate (ps : list (list char)) (text : list char)
    (fuel : nat) :
  trie_size ps ≤ fuel →
  ∃ a ms, build fuel ps = Ok a ∧
    search_st fuel text a = Ok (ms, a) ∧
    st_bind (search_st fuel text) (λ ms1,
      st_bind (search_st fuel text) (λ ms2, st_ret (ms1, ms2))) a
      = Ok ((ms, ms), a) ∧
    ∀ fuel' text' r a', search_st fuel' text' a = Ok (r, a') → a' = a.
Proof.
  intros Hfuel. destruct (build_spec ps fuel Hfuel) as (a & lbl & Hb & Hinv & _ & Hl).
  exists a, (scan_spec (patterns a) text).
  assert (Hrun : search_st fuel text a = Ok (scan_spec (patterns a) text, a)).
  { rewrite search_st_unchanged, (search_spec a lbl) by (done || lia). done. }
  split_and!; [done..| |].
  - unfold st_bind. by rewrite Hrun, Hrun.
  - intros fuel' text' r a'. rewrite search_st_unchanged.
    destruct (search fuel' a text'); simpl; congruence.
Qed.

(** C9. [handle_empty_pattern] returns the supplied ground truth when it
    is non-empty and otherwise the offsets [0, 1, ..., min(50, len(text)) - 1];
    for a text of length 5 and no ground truth that is [0, 1, 2, 3, 4]. *)
Theorem handle_empty_pattern_fallback (text : list char) (ground_truth : list Z) :
  (ground_truth ≠ [] → handle_empty_pattern text ground_truth = ground_truth) ∧
  length (handle_empty_pattern text []) = Nat.min 50 (length text) ∧
  (∀ i, i < Nat.min 50 (length text) →
        handle_empty_pattern text [] !! i = Some (Z.of_nat i)) ∧
  (length text = 5 →
   handle_empty_pattern text [] = [0; 1; 2; 3; 4]%Z).
Proof.
  split_and!.
  - by destruct ground_truth.
  - simpl. by rewrite length_fmap, length_seq.
  - intros i Hi. simpl. rewrite list_lookup_fmap, lookup_seq_lt by done. done.
  - intros Hlen. simpl. by rewrite Hlen.
Qed.

(** C10. After any sequence of [add_pattern] calls followed by
    [build_failure_links], every identifier in an output list is an index
    into [patterns], and [search] never raises [IndexError]. *)
Theorem output_ids_in_bounds (ps : list (list char)) (fuel : nat) :
  trie_size ps ≤ fuel →
  ∃ a, build fuel ps = Ok a ∧
    (∀ n k, k ∈ output (deref (heap a) n) → k < length (patterns a)) ∧
    (∀ n k, k ∈ output (deref (heap a) n) → is_Some (patterns a !! k)) ∧
    ∀ text fuel', search fuel' a text ≠ Raise IndexError.
Proof.
  intros Hfuel. destruct (build_spec ps fuel Hfuel) as (a & lbl & Hb & Hinv & _).
  pose proof (ai_wf Hinv) as Hwf.
  assert (Hout : ∀ n k, k ∈ output (deref (heap a) n) → k < length (patterns a)).
  { intros n k Hk. destruct (decide (n < length (heap a))) as [Hn|Hn].
    - destruct (valid_label lbl _ _ Hwf Hn) as [s Hs].
      rewrite (ai_out Hinv n Hn s Hs) in Hk.
      apply elem_of_out_spec in Hk as (p & Hp & _). by eapply lookup_lt_Some.
    - rewrite deref_ge in Hk by lia. by apply elem_of_nil in Hk. }
  exists a. split_and!; [done..| |].
  - intros n k Hk. by apply lookup_lt_is_Some_2, (Hout n).
  - intros text fuel'. by apply search_loop_no_index_error.
Qed.

End proofs.

(** * Concrete scans *)

(** C4, as the code has it: on the patterns ["he", "she", "hers"] the
    search of "ushers" yields [(1,"she"), (2,"he"), (2,"hers")], the
    offsets being 0-based start positions. *)
Theorem ushers_matches (fuel : nat) :
  trie_size ushers_patterns ≤ fuel →
  run fuel ushers_patterns (str "ushers") =
    Ok [(1%Z, str "she"); (2%Z, str "he"); (2%Z, str "hers")].
Proof. intros Hfuel. rewrite run_spec by done. by vm_compute. Qed.

Lemma ushers_matches_witness :
  trie_size ushers_patterns ≤ 8 ∧
  run 8 ushers_patterns (str "ushers") =
    Ok [(1%Z, str "she"); (2%Z, str "he"); (2%Z, str "hers")].
Proof.
  assert (H : trie_size ushers_patterns ≤ 8) by (vm_compute; lia).
  split; [exact H | exact (ushers_matches 8 H)].
Defined.

(** C4 as stated fails: no run of the search returns the offsets
    [(2,"she"), (3,"he"), (3,"hers")], which count positions from 1. *)
Lemma ushers_claimed_offsets_refuted :
  ¬ ∃ fuel, run fuel ushers_patterns (str "ushers") =
              Ok [(2%Z, str "she"); (3%Z, str "he"); (3%Z, str "hers")].
Proof.
  intros [fuel Hrun]. destruct (decide (8 ≤ fuel)) as [Hfuel|Hfuel].
  - rewrite run_spec in Hrun by (vm_compute; lia). vm_compute in Hrun.
    discriminate.
  - do 8 (destruct fuel as [|fuel]; [vm_compute in Hrun; discriminate|]). lia.
Qed.

(** The no-match and the overlapping-occurrence cases. *)
Example no_match :
  run 4 [str "xyz"] (str "abcabc") = Ok [].
Proof. by vm_compute. Qed.

Example overlapping_occurrences :
  run 3 [str "aa"] (str "aaaa") =
    Ok [(0%Z, str "aa"); (1%Z, str "aa"); (2%Z, str "aa")].
Proof. by vm_compute. Qed.

(** With too little fuel a loop is cut short, and the run says so. *)
Example out_of_fuel :
  run 2 ushers_patterns (str "ushers") = OutOfFuel.
Proof. by vm_compute. Qed.

(** * The theorems at concrete inputs *)

Lemma ushers_patterns_nonempty : ∀ p, p ∈ ushers_patterns → p ≠ [].
Proof.
  intros p Hp. repeat (apply elem_of_cons in Hp as [->|Hp]; [done|]).
  by apply elem_of_nil in Hp.
Defined.

Lemma ushers_trie_size : trie_size ushers_patterns ≤ 8.
Proof. vm_compute. lia. Defined.

Lemma single_pattern_matches_naive_witness :
  str "ab" ≠ [] ∧ length (str "ab") < 3 ∧
  run 3 [str "ab"] (str "cabab") =
    Ok ((λ i, (Z.of_nat i, str "ab")) <$> naive_scan (str "ab") (str "cabab")).
Proof.
  assert (H1 : str "ab" ≠ []) by done.
  assert (H2 : length (str "ab") < 3) by (simpl; lia).
  split; [exact H1|]. split; [exact H2|].
  exact (proj1 (single_pattern_matches_naive (str "ab") (str "cabab") 3 H1 H2)).
Defined.

Lemma multi_pattern_superposition_witness :
  (∀ p, p ∈ ushers_patterns → p ≠ []) ∧ trie_size ushers_patterns ≤ 8 ∧
  ∃ ms, run 8 ushers_patterns (str "ushers") = Ok ms ∧
        ms ≡ₚ naive_matches ushers_patterns (str "ushers").
Proof.
  split; [exact ushers_patterns_nonempty|]. split; [exact ushers_trie_size|].
  destruct (multi_pattern_superposition ushers_patterns (str "ushers") 8
              ushers_patterns_nonempty ushers_trie_size) as (ms & H1 & H2 & _).
  exists ms. split; [exact H1 | exact H2].
Defined.

Lemma failure_link_longest_proper_suffix_witness :
  trie_size ushers_patterns ≤ 8 ∧
  ∃ a, build 8 ushers_patterns = Ok a ∧
    ∀ n, n < length (heap a) → n ≠ root →
      ∃ s m t,
        walk (heap a) s = Some n ∧ (∀ s', walk (heap a) s' = Some n → s' = s) ∧
        failure_link (deref (heap a) n) = Some m ∧
        walk (heap a) t = Some m ∧ (∀ m', walk (heap a) t = Some m' → m' = m) ∧
        t `suffix_of` s ∧ t ≠ s ∧
        ∀ u, u `suffix_of` s → u ≠ s → is_Some (walk (heap a) u) →
             length u ≤ length t.
Proof.
  split; [exact ushers_trie_size|].
  exact (failure_link_longest_proper_suffix ushers_patterns 8 ushers_trie_size).
Defined.

Lemma duplicate_pattern_reported_twice_witness :
  str "ab" ≠ [] ∧
  patterns (add_pattern (str "ab") (add_pattern (str "ab") new_automaton)) =
    [str "ab"; str "ab"] ∧
  run 3 [str "ab"; str "ab"] (str "ab") = Ok [(0%Z, str "ab"); (0%Z, str "ab")].
Proof.
  assert (H1 : str "ab" ≠ []) by done.
  destruct (duplicate_pattern_reported_twice [] (str "ab") H1)
    as [(n & _ & _ & Hp & _) Hrun].
  split; [exact H1|]. split; [exact Hp|].
  apply Hrun. vm_compute. lia.
Defined.

Lemma search_fallback_terminates_witness :
  trie_size ushers_patterns ≤ 8 ∧
  ∃ a, build 8 ushers_patterns = Ok a ∧
    ∀ text fuel', length (heap a) ≤ fuel' →
      ∃ ms, search fuel' a text = Ok ms.
Proof.
  split; [exact ushers_trie_size|].
  destruct (search_fallback_terminates ushers_patterns 8 ushers_trie_size)
    as (a & Hb & _ & _ & Htotal).
  exists a. split; [exact Hb | exact Htotal].
Defined.

Lemma search_does_not_mutate_witness :
  trie_size ushers_patterns ≤ 8 ∧
  ∃ a ms, build 8 ushers_patterns = Ok a ∧
          search_st 8 (str "ushers") a = Ok (ms, a).
Proof.
  split; [exact ushers_trie_size|].
  destruct (search_does_not_mutate ushers_patterns (str "ushers") 8
              ushers_trie_size) as (a & ms & Hb & Hs & _).
  exists a, ms. split; [exact Hb | exact Hs].
Defined.

Lemma output_ids_in_bounds_witness :
  trie_size ushers_patterns ≤ 8 ∧
  ∃ a, build 8 ushers_patterns = Ok a ∧
    ∀ n k, k ∈ output (deref (heap a) n) → k < length (patterns a).
Proof.
  split; [exact ushers_trie_size|].
  destruct (output_ids_in_bounds ushers_patterns 8 ushers_trie_size)
    as (a & Hb & Hout & _).
  exists a. split; [exact Hb | exact Hout].
Defined.

Lemma handle_empty_pattern_fallback_witness :
  length (str "hello") = 5 ∧
  handle_empty_pattern (str "hello") [] = [0; 1; 2; 3; 4]%Z.
Proof.
  assert (H : length (str "hello") = 5) by reflexivity.
  split; [exact H|].
  exact (proj2 (proj2 (proj2
    (handle_empty_pattern_fallback (str "hello") []))) H).
Defined.

(** * Further properties of the automaton *)

Section more_proofs.
Context {char : Type} `{EqDecision char}.
Implicit Types (h : list (AhoCorasickNode char)) (lbl : list (list char)).
Implicit Types (s t u w p text : list char) (c : char) (n m k : nat).
Implicit Types (a : AhoCorasick char) (ps : list (list char)).

(** ** What [build_failure_links] leaves alone *)

Lemma deref_alter_ne (f : AhoCorasickNode char → AhoCorasickNode char) h i k :
  k ≠ i → deref (alter f i h) k = deref h k.
Proof. intros. unfold deref. by rewrite list_lookup_alter_ne. Qed.

Lemma deref_alter_field {B} (g : AhoCorasickNode char → B)
    (f : AhoCorasickNode char → AhoCorasickNode char) h i k :
  (∀ nd, g (f nd) = g nd) → g (deref (alter f i h) k) = g (deref h k).
Proof.
  intros Hg. unfold deref. destruct (decide (k = i)) as [->|].
  - rewrite list_lookup_alter_eq. destruct (h !! i); simpl; [apply Hg|done].
  - by rewrite list_lookup_alter_ne.
Qed.

Lemma init_queue_frame kids : ∀ h q h' q',
  init_queue h kids q = (h', q') →
  length h' = length h ∧
  (∀ k, children (deref h' k) = children (deref h k)) ∧
  (∀ k, is_end_of_pattern (deref h' k) = is_end_of_pattern (deref h k)) ∧
  (∀ x, x ∉ kids.*2 → deref h' x = deref h x).
Proof.
  induction kids as [|[c child] kids IH]; intros h q h' q' Hrun; simpl in Hrun.
  - by simplify_eq.
  - apply IH in Hrun as (Hlen & Hch & Hend & Hother).
    rewrite length_alter in Hlen. split_and!; [done|..].
    + intros k. by rewrite Hch, deref_alter_field.
    + intros k. by rewrite Hend, deref_alter_field.
    + intros x Hx. simpl in Hx. apply not_elem_of_cons in Hx as [Hx1 Hx2].
      by rewrite Hother, deref_alter_ne.
Qed.

Lemma link_children_frame fuel cur kids : ∀ h q h' q',
  link_children fuel h cur kids q = Ok (h', q') →
  length h' = length h ∧
  (∀ k, children (deref h' k) = children (deref h k)) ∧
  (∀ k, is_end_of_pattern (deref h' k) = is_end_of_pattern (deref h k)) ∧
  (∀ x, x ∉ kids.*2 → deref h' x = deref h x).
Proof.
  induction kids as [|[c child] kids IH]; intros h q h' q' Hrun; simpl in Hrun.
  - by simplify_eq.
  - destruct (follow_failure _ _ _ _) as [g| |]; [|done..]. simpl in Hrun.
    apply IH in Hrun as (Hlen & Hch & Hend & Hother).
    rewrite !length_alter in Hlen. split_and!; [done|..].
    + intros k. by rewrite Hch, !deref_alter_field.
    + intros k. by rewrite Hend, !deref_alter_field.
    + intros x Hx. simpl in Hx. apply not_elem_of_cons in Hx as [Hx1 Hx2].
      by rewrite Hother, !deref_alter_ne.
Qed.

Lemma bfs_loop_frame fuel n : ∀ h q h',
  bfs_loop n fuel h q = Ok h' →
  length h' = length h ∧
  (∀ k, children (deref h' k) = children (deref h k)) ∧
  (∀ k, is_end_of_pattern (deref h' k) = is_end_of_pattern (deref h k)) ∧
  (∀ x, (∀ k, x ∉ (children (deref h k)).*2) → deref h' x = deref h x).
Proof.
  induction n as [|n IH]; intros h [|cur q] h' Hrun; simpl in Hrun;
    try (by simplify_eq).
  destruct (link_children _ _ _ _ _) as [[h1 q1]| |] eqn:Hlink; [|done..].
  simpl in Hrun.
  apply link_children_frame in Hlink as (Hlen1 & Hch1 & Hend1 & Hother1).
  apply IH in Hrun as (Hlen & Hch & Hend & Hother).
  split_and!.
  - congruence.
  - intros k. by rewrite Hch.
  - intros k. by rewrite Hend.
  - intros x Hx. rewrite Hother, Hother1; [done|apply Hx|].
    intros k. rewrite Hch1. apply Hx.
Qed.

Lemma root_not_child h lbl k : trie_wf h lbl → root ∉ (children (deref h k)).*2.
Proof.
  intros Hwf ([c m] & Hm & Hin)%list_elem_of_fmap. simpl in Hm. subst m.
  apply (elem_dict_get _ _ _ (wf_keys Hwf k)) in Hin.
  destruct (wf_edge Hwf _ _ _ Hin) as (s & _ & Hroot).
  pose proof (wf_root Hwf). simplify_eq. by destruct s.
Qed.

(** X1. [build_failure_links] changes failure links and output lists
    only: whenever it returns, the pattern list, the number of states,
    every transition and every end-of-pattern flag are as before, and a
    state that is the child of no state is untouched. *)
Theorem build_failure_links_frame a a' (fuel : nat) :
  build_failure_links fuel a = Ok a' →
  patterns a' = patterns a ∧
  length (heap a') = length (heap a) ∧
  (∀ k, children (deref (heap a') k) = children (deref (heap a) k)) ∧
  (∀ k, is_end_of_pattern (deref (heap a') k)
        = is_end_of_pattern (deref (heap a) k)) ∧
  (∀ x, (∀ k, x ∉ (children (deref (heap a) k)).*2) →
        deref (heap a') x = deref (heap a) x).
Proof.
  unfold build_failure_links. intros Hrun.
  destruct (init_queue _ _ _) as [h1 q1] eqn:Hinit.
  destruct (bfs_loop _ _ _ _) as [h2| |] eqn:Hloop; [|done..].
  simpl in Hrun. injection Hrun as <-. simpl.
  apply init_queue_frame in Hinit as (Hlen1 & Hch1 & Hend1 & Hother1).
  apply bfs_loop_frame in Hloop as (Hlen & Hch & Hend & Hother).
  split_and!; [done|congruence|..].
  - intros k. by rewrite Hch.
  - intros k. by rewrite Hend.
  - intros x Hx. rewrite Hother, Hother1; [done|apply Hx|].
    intros k. rewrite Hch1. apply Hx.
Qed.


(** ** The trie before [build_failure_links] *)

Lemma insert_path_walk p : ∀ h lbl cur s0 h' n s m,
  trie_wf h lbl → lbl !! cur = Some s0 → insert_path h cur p = (h', n) →
  walk h' s = Some m →
  walk h s = Some m ∨ ∃ p1, p1 `prefix_of` p ∧ s = s0 ++ p1.
Proof.
  induction p as [|c p IH]; intros h lbl cur s0 h' n s m Hwf Hcur Hins Hwalk;
    simpl in Hins.
  - simplify_eq. by left.
  - fold (goto h cur c) in Hins. destruct (goto h cur c) as [next|] eqn:Hg.
    + apply (goto_label _ _ _ _ _ _ Hwf Hcur) in Hg.
      destruct (IH _ _ _ _ _ _ _ _ Hwf Hg Hins Hwalk) as [?|(p1 & Hp1 & ->)];
        [by left|right].
      exists (c :: p1). split; [by apply prefix_cons|by rewrite <- app_assoc].
    + pose proof (trie_wf_alloc _ _ _ _ _ Hwf Hcur Hg) as Hwf1.
      assert (Hlt : cur < length h) by eauto using label_valid.
      assert (Hfresh : (lbl ++ [s0 ++ [c]]) !! length h = Some (s0 ++ [c])).
      { rewrite <- (wf_length Hwf). by rewrite lookup_app_r, Nat.sub_diag by lia. }
      destruct (IH _ _ _ _ _ _ _ _ Hwf1 Hfresh Hins Hwalk) as [Hold|(p1 & Hp1 & ->)].
      * apply (walk_label _ _ _ _ Hwf1) in Hold.
        apply lookup_app_Some in Hold as [Hold|[_ Hnew]].
        -- left. by apply (walk_label _ _ _ _ Hwf).
        -- right. destruct (m - length lbl) as [|?]; simplify_eq/=.
           exists [c]. split; [|done]. by apply prefix_cons, prefix_nil.
      * right. exists (c :: p1).
        split; [by apply prefix_cons|by rewrite <- app_assoc].
Qed.

(** Facts kept by every [add_pattern]: the end-of-pattern flag is set
    exactly where the output list is non-empty, and every path of the
    trie spells a prefix of a registered pattern. *)
Lemma add_pattern_flags a lbl p :
  trie_inv a lbl → p ≠ [] →
  (∀ n, is_end_of_pattern (deref (heap a) n) = true
        ↔ output (deref (heap a) n) ≠ []) →
  (∀ s n, walk (heap a) s = Some n →
          s = [] ∨ ∃ q, q ∈ patterns a ∧ s `prefix_of` q) →
  (∀ n, is_end_of_pattern (deref (heap (add_pattern p a)) n) = true
        ↔ output (deref (heap (add_pattern p a)) n) ≠ []) ∧
  (∀ s n, walk (heap (add_pattern p a)) s = Some n →
          s = [] ∨ ∃ q, q ∈ patterns (add_pattern p a) ∧ s `prefix_of` q).
Proof.
  intros Hinv Hp Hend Hpre. pose proof (ti_wf Hinv) as Hwf.
  destruct (insert_path (heap a) root p) as [h' n'] eqn:Hins.
  assert (Ha' : add_pattern p a =
                {| heap := alter (mark_end (length (patterns a))) n' h';
                   patterns := patterns a ++ [p] |}).
  { unfold add_pattern. rewrite Hins. by destruct p. }
  destruct (insert_path_spec _ _ _ _ _ _ _ Hwf (wf_root Hwf) Hins)
    as (ext & Hwf' & Hn' & _ & Hout & Hfl).
  assert (Hlt : n' < length h') by (by eapply label_valid).
  rewrite Ha'. simpl. split.
  - intros n. rewrite deref_alter by done. case_decide; simpl.
    + split; [|done]. intros _. by destruct (output (deref h' n')).
    + rewrite Hfl, Hout. apply Hend.
  - intros s n Hwalk.
    assert (Hwalk' : walk h' s = Some n).
    { unfold walk in *. rewrite <- Hwalk. symmetry. apply walk_from_children.
      intros k. by rewrite deref_alter_field. }
    destruct (insert_path_walk _ _ _ _ _ _ _ _ _ Hwf (wf_root Hwf) Hins Hwalk')
      as [Hold|(p1 & Hp1 & ->)].
    + destruct (Hpre _ _ Hold) as [?|(q & Hq & ?)]; [by left|right].
      exists q. split; [|done]. apply elem_of_app. by left.
    + right. exists p. split; [|done]. apply elem_of_app. right. left.
Qed.

Lemma add_patterns_flags ps : ∀ a lbl,
  trie_inv a lbl →
  (∀ n, is_end_of_pattern (deref (heap a) n) = true
        ↔ output (deref (heap a) n) ≠ []) →
  (∀ s n, walk (heap a) s = Some n →
          s = [] ∨ ∃ q, q ∈ patterns a ∧ s `prefix_of` q) →
  ∃ lbl',
    trie_inv (add_patterns ps a) lbl' ∧
    patterns (add_patterns ps a) = patterns a ++ filter (λ p, p ≠ []) ps ∧
    (∀ n, is_end_of_pattern (deref (heap (add_patterns ps a)) n) = true
          ↔ output (deref (heap (add_patterns ps a)) n) ≠ []) ∧
    (∀ s n, walk (heap (add_patterns ps a)) s = Some n →
            s = [] ∨ ∃ q, q ∈ patterns (add_patterns ps a) ∧ s `prefix_of` q).
Proof.
  induction ps as [|p ps IH]; intros a lbl Hinv Hend Hpre; simpl.
  - exists lbl. by rewrite app_nil_r.
  - destruct (decide (p = [])) as [->|Hp].
    + rewrite add_pattern_nil, filter_cons_False by (by intros ?). by eapply IH.
    + destruct (add_pattern_inv _ _ _ Hinv Hp) as (ext1 & Hinv1 & Hp1).
      destruct (add_pattern_flags _ _ _ Hinv Hp Hend Hpre) as [Hend1 Hpre1].
      destruct (IH _ _ Hinv1 Hend1 Hpre1) as (lbl' & Hinv' & Hp' & Hend' & Hpre').
      exists lbl'. split_and!; [done| |done..].
      rewrite Hp', Hp1, filter_cons_True by done. by rewrite <- app_assoc.
Qed.

Lemma trie_facts ps :
  let a := add_patterns ps new_automaton in
  ∃ lbl,
    trie_inv a lbl ∧
    patterns a = filter (λ p, p ≠ []) ps ∧
    (∀ n, is_end_of_pattern (deref (heap a) n) = true
          ↔ output (deref (heap a) n) ≠ []) ∧
    (∀ s n, walk (heap a) s = Some n →
            s = [] ∨ ∃ q, q ∈ patterns a ∧ s `prefix_of` q).
Proof.
  intros a.
  destruct (add_patterns_flags ps new_automaton [[]] new_automaton_inv)
    as (lbl & H1 & H2 & H3 & H4).
  - intros [|[|n]]; simpl; split; done.
  - intros s n Hwalk. left.
    apply (walk_label _ _ _ _ (ti_wf new_automaton_inv)) in Hwalk.
    by destruct n as [|[|?]]; simplify_eq/=.
  - exists lbl. done.
Qed.

(** X2. The states of the trie are the prefixes of the registered
    patterns: a string is the path-label of a state exactly when it is
    empty or a prefix of one of the inserted patterns. *)
Theorem trie_states_are_prefixes ps s :
  is_Some (walk (heap (add_patterns ps new_automaton)) s) ↔
  s = [] ∨ ∃ p, p ∈ ps ∧ s `prefix_of` p.
Proof.
  destruct (trie_facts ps) as (lbl & Hinv & Hpats & _ & Hpre).
  pose proof (ti_wf Hinv) as Hwf. split.
  - intros [n Hn]. destruct (Hpre _ _ Hn) as [?|(q & Hq & ?)]; [by left|right].
    exists q. split; [|done]. rewrite Hpats in Hq.
    by apply list_elem_of_filter in Hq as [_ ?].
  - intros [->|(p & Hp & [t ->])].
    + exists root. by apply (walk_label _ _ _ _ Hwf), (wf_root Hwf).
    + destruct (decide (s ++ t = [])) as [Hnil|Hne].
      * apply app_eq_nil in Hnil as [-> _].
        exists root. by apply (walk_label _ _ _ _ Hwf), (wf_root Hwf).
      * assert (Hin : s ++ t ∈ patterns (add_patterns ps new_automaton)).
        { rewrite Hpats. by apply list_elem_of_filter. }
        apply (ti_pats Hinv) in Hin as [_ (m & Hm)%list_elem_of_lookup_1].
        destruct (label_prefix_closed _ _ _ _ _ Hwf Hm) as (n & Hn).
        exists n. by apply (walk_label _ _ _ _ Hwf).
Qed.

(** X3. Insertion and lookup: empty strings are skipped without using
    up an identifier, the [k]-th non-empty pattern gets identifier [k],
    and each registered pattern is the path-label of a state flagged as
    end of pattern whose output list holds exactly the identifiers of
    the patterns equal to it, in increasing order and without
    repetition. *)
Theorem registered_patterns_roundtrip ps :
  let a := add_patterns ps new_automaton in
  patterns a = filter (λ p, p ≠ []) ps ∧
  ∀ k p, patterns a !! k = Some p →
    ∃ n, walk (heap a) p = Some n ∧
         is_end_of_pattern (deref (heap a) n) = true ∧
         failure_link (deref (heap a) n) = None ∧
         output (deref (heap a) n) =
           filter (λ j, patterns a !! j = Some p) (seq 0 (length (patterns a))) ∧
         k ∈ output (deref (heap a) n).
Proof.
  intros a. destruct (trie_facts ps) as (lbl & Hinv & Hpats & Hend & _).
  fold a in Hinv, Hpats, Hend. split; [done|]. intros k p Hk.
  pose proof (ti_wf Hinv) as Hwf.
  assert (Hin : p ∈ patterns a) by (by eapply list_elem_of_lookup_2).
  apply (ti_pats Hinv) in Hin as [_ (n & Hn)%list_elem_of_lookup_1].
  assert (Hout := ti_out Hinv n p Hn).
  assert (Hkin : k ∈ output (deref (heap a) n)).
  { rewrite Hout. by apply elem_of_lit. }
  exists n. split_and!; [by apply (walk_label _ _ _ _ Hwf)| |apply (ti_fail Hinv)|done..].
  apply Hend. intros Hnil. rewrite Hnil in Hkin. by apply elem_of_nil in Hkin.
Qed.

(** X4. [add_pattern] keeps every state where it is: a path of the
    trie leads to the same state after a further insertion, and the
    number of states grows by at most the length of the pattern. *)
Theorem add_pattern_keeps_paths ps p s n :
  let a := add_patterns ps new_automaton in
  walk (heap a) s = Some n →
  walk (heap (add_pattern p a)) s = Some n ∧
  length (heap a) ≤ length (heap (add_pattern p a)) ≤ length (heap a) + length p.
Proof.
  intros a Hwalk. destruct (add_patterns_trie_inv ps) as (lbl & Hinv & _).
  fold a in Hinv. pose proof (ti_wf Hinv) as Hwf.
  destruct (decide (p = [])) as [->|Hp].
  { rewrite add_pattern_nil. split; [done|lia]. }
  destruct (add_pattern_inv _ _ _ Hinv Hp) as (ext & Hinv' & _).
  pose proof (ti_wf Hinv') as Hwf'.
  apply (walk_label _ _ _ _ Hwf) in Hwalk. split_and!.
  - apply (walk_label _ _ _ _ Hwf'). by apply lookup_app_l_Some.
  - rewrite <- (wf_length Hwf), <- (wf_length Hwf'), length_app. lia.
  - apply add_pattern_length.
Qed.

(** ** The automaton after [build_failure_links] *)

Lemma lifecycle ps fuel :
  trie_size ps ≤ fuel →
  let a0 := add_patterns ps new_automaton in
  ∃ a lbl, build fuel ps = Ok a ∧ trie_inv a0 lbl ∧ auto_inv a lbl ∧
    patterns a = filter (λ p, p ≠ []) ps ∧
    (∀ n, is_end_of_pattern (deref (heap a0) n) = true
          ↔ output (deref (heap a0) n) ≠ []).
Proof.
  intros Hfuel a0. destruct (trie_facts ps) as (lbl & Hinv & Hpats & Hend & _).
  destruct (build_failure_links_inv _ _ Hinv fuel Hfuel) as (a & Hb & Ha & Hpa & _).
  exists a, lbl. split_and!; [done..| |done]. by rewrite Hpa.
Qed.

Lemma NoDup_out_spec ps s : NoDup (out_spec ps s).
Proof.
  unfold out_spec. apply NoDup_bind; [| |apply NoDup_suffixes].
  - intros t1 t2 k _ _ H1%elem_of_lit H2%elem_of_lit. congruence.
  - intros t _. apply NoDup_filter, NoDup_seq.
Qed.

Lemma lit_nonempty ps s : lit ps s ≠ [] ↔ s ∈ ps.
Proof.
  split.
  - intros Hne. destruct (decide (s ∈ ps)) as [?|Hnot]; [done|].
    by apply lit_nil in Hnot.
  - intros (k & Hk)%list_elem_of_lookup_1 Hnil.
    apply elem_of_lit in Hk. rewrite Hnil in Hk. by apply elem_of_nil in Hk.
Qed.

(** X5. After [build_failure_links] the output list of the state of
    path-label [s] holds, without repetition, exactly the identifiers of
    the registered patterns that are suffixes of [s]; for a non-root
    state it is the identifiers of the patterns equal to [s] followed by
    the output list of its failure link; the end-of-pattern flag marks
    the states whose path-label is itself a pattern; and the root keeps
    no failure link and an empty output list. *)
Theorem output_lists_after_build ps (fuel : nat) :
  trie_size ps ≤ fuel →
  ∃ a, build fuel ps = Ok a ∧
    failure_link (deref (heap a) root) = None ∧
    output (deref (heap a) root) = [] ∧
    ∀ n s, walk (heap a) s = Some n →
      NoDup (output (deref (heap a) n)) ∧
      (∀ k, k ∈ output (deref (heap a) n)
            ↔ ∃ p, patterns a !! k = Some p ∧ p `suffix_of` s) ∧
      (is_end_of_pattern (deref (heap a) n) = true ↔ s ∈ patterns a) ∧
      (n ≠ root →
       ∃ m, failure_link (deref (heap a) n) = Some m ∧
            output (deref (heap a) n) =
              filter (λ j, patterns a !! j = Some s)
                     (seq 0 (length (patterns a)))
              ++ output (deref (heap a) m)).
Proof.
  intros Hfuel.
  destruct (lifecycle ps fuel Hfuel) as (a & lbl & Hb & Hinv0 & Hinv & Hpats & Hend).
  pose proof (ti_wf Hinv0) as Hwf0. pose proof (ai_wf Hinv) as Hwf.
  destruct (build_failure_links_frame _ _ _ Hb) as (Hp & Hlen & Hch & Hfl & Hother).
  assert (Hroot : deref (heap a) root = deref (heap (add_patterns ps new_automaton)) root).
  { apply Hother. intros k. by eapply root_not_child. }
  exists a. split_and!; [done|..].
  - rewrite Hroot. apply (ti_fail Hinv0).
  - rewrite Hroot, (ti_out Hinv0 _ _ (wf_root Hwf0)). apply lit_nil.
    intros Hin. by apply (ti_pats Hinv0) in Hin as [? _].
  - intros n s Hwalk. apply (walk_label _ _ _ _ Hwf) in Hwalk.
    pose proof (label_valid _ _ _ _ Hwf Hwalk) as Hn.
    pose proof (ai_out Hinv n Hn s Hwalk) as Hout.
    split_and!.
    + rewrite Hout. apply NoDup_out_spec.
    + intros k. rewrite Hout. apply elem_of_out_spec.
    + rewrite Hfl, Hend, (ti_out Hinv0 _ _ Hwalk), Hp. apply lit_nonempty.
    + intros Hnr.
      assert (Hs : s ≠ []).
      { intros ->. by apply Hnr, (label_root _ _ _ Hwf). }
      destruct (ai_fail Hinv n Hn s Hwalk Hs) as (m & t & Hfm & Hm & Hls).
      exists m. split; [done|].
      rewrite Hout, (ai_out Hinv m (label_valid _ _ _ _ Hwf Hm) t Hm).
      destruct s as [|c s]; [done|]. rewrite out_spec_cons. f_equal.
      eapply out_spec_longest_suffix; [|done].
      intros p Hin. by apply (ai_pats Hinv) in Hin as [_ ?].
Qed.

(** ** Order and extent of the matches *)

Lemma StronglySorted_mono {A} (R R' : A → A → Prop) (l : list A) :
  (∀ x y, x ∈ l → y ∈ l → R x y → R' x y) →
  StronglySorted R l → StronglySorted R' l.
Proof.
  intros Himp Hs. induction Hs as [|x l Hs IH Hall]; constructor.
  - apply IH. intros y z Hy Hz. apply Himp; by right.
  - rewrite Forall_forall in *. intros y Hy.
    apply Himp; [left|by right|by apply Hall].
Qed.

Lemma StronglySorted_bind {A B} (R : B → B → Prop) (f : A → list B) (l : list A) :
  (∀ x, x ∈ l → StronglySorted R (f x)) →
  StronglySorted (λ x y, ∀ b1 b2, b1 ∈ f x → b2 ∈ f y → R b1 b2) l →
  StronglySorted R (l ≫= f).
Proof.
  intros Hf Hs. induction Hs as [|x l Hs IH Hall]; [constructor|].
  rewrite bind_cons. apply StronglySorted_app. split_and!.
  - intros b1 b2 Hb1 (y & Hb2 & Hy)%list_elem_of_bind.
    rewrite Forall_forall in Hall. by apply (Hall y Hy).
  - apply Hf. left.
  - apply IH. intros y Hy. apply Hf. by right.
Qed.

Lemma StronglySorted_seq start len : StronglySorted lt (seq start len).
Proof.
  revert start. induction len as [|len IH]; intros start; simpl; constructor.
  - apply IH.
  - apply Forall_forall. intros j Hj%elem_of_seq. lia.
Qed.

Lemma StronglySorted_suffixes s :
  StronglySorted (λ t1 t2, length t2 < length t1) (suffixes s).
Proof.
  induction s as [|c s IH]; simpl.
  - repeat constructor.
  - constructor; [done|]. apply Forall_forall.
    intros t Ht%elem_of_suffixes%suffix_length. simpl. lia.
Qed.

Lemma elem_of_matches_at ps i w (r : match_ char) :
  r ∈ matches_at ps i w ↔ r.2 `suffix_of` w ∧ r.2 ∈ ps ∧ r.1 = start_of i r.2.
Proof.
  unfold matches_at. rewrite list_elem_of_bind. split.
  - intros (t & (k & -> & Hk)%list_elem_of_fmap & Ht%elem_of_suffixes). simpl.
    split_and!; [done| |done]. apply elem_of_lit in Hk.
    by eapply list_elem_of_lookup_2.
  - intros (Hs & (k & Hk)%list_elem_of_lookup_1 & Hst). exists r.2. split.
    + apply list_elem_of_fmap. exists k. split; [|by apply elem_of_lit].
      destruct r; simpl in *; by subst.
    + by apply elem_of_suffixes.
Qed.

Lemma matches_at_sorted ps i w : StronglySorted match_le (matches_at ps i w).
Proof.
  unfold matches_at. apply StronglySorted_bind.
  - intros t _. induction (lit ps t) as [|k l IH]; simpl; constructor; [done|].
    apply Forall_forall. intros r (k' & -> & _)%list_elem_of_fmap.
    right. split; [done|simpl; lia].
  - eapply StronglySorted_mono; [|apply StronglySorted_suffixes].
    intros t1 t2 _ _ Hlen r1 r2 (k1 & -> & _)%list_elem_of_fmap
      (k2 & -> & _)%list_elem_of_fmap.
    simpl in Hlen. right. unfold match_end, start_of. simpl. lia.
Qed.

(** X6. The matches come out ordered by the position of their last
    character and, among those ending at the same position, by start
    offset (longer patterns first). *)
Theorem matches_ordered_by_end ps text (fuel : nat) :
  trie_size ps ≤ fuel →
  ∃ ms, run fuel ps text = Ok ms ∧ StronglySorted match_le ms.
Proof.
  intros Hfuel. eexists. split; [by apply run_spec|].
  unfold scan_spec. apply StronglySorted_bind.
  - intros i _. apply matches_at_sorted.
  - eapply StronglySorted_mono; [|apply StronglySorted_seq].
    intros i j _ _ Hij r1 r2 (_ & _ & H1)%elem_of_matches_at
      (_ & _ & H2)%elem_of_matches_at.
    left. unfold match_end, start_of in *. rewrite H1, H2. lia.
Qed.

(** X7. Whatever strings are handed to [add_pattern], empty ones
    included, the search reports [(z, p)] exactly when [p] is one of the
    non-empty patterns and occurs in the text at offset [z]; so every
    reported offset is non-negative and the match lies within the text. *)
Theorem matches_are_occurrences ps text (fuel : nat) :
  trie_size ps ≤ fuel →
  ∃ ms, run fuel ps text = Ok ms ∧
    (∀ z p, (z, p) ∈ ms ↔
       p ∈ ps ∧ p ≠ [] ∧
       ∃ t1 t2, text = t1 ++ p ++ t2 ∧ z = Z.of_nat (length t1)) ∧
    (∀ z p, (z, p) ∈ ms →
       (0 ≤ z)%Z ∧ (z + Z.of_nat (length p) ≤ Z.of_nat (length text))%Z).
Proof.
  intros Hfuel. eexists. split; [by apply run_spec|].
  assert (Hchar : ∀ z p, (z, p) ∈ scan_spec (filter (λ p, p ≠ []) ps) text ↔
            p ∈ ps ∧ p ≠ [] ∧
            ∃ t1 t2, text = t1 ++ p ++ t2 ∧ z = Z.of_nat (length t1)).
  { intros z p. rewrite scan_spec_naive
      by (by intros q [? _]%list_elem_of_filter).
    unfold naive_matches. rewrite list_elem_of_bind. split.
    - intros (q & (i & [= -> ->] & Hi)%list_elem_of_fmap & [Hne Hq]%list_elem_of_filter).
      apply naive_scan_occurs in Hi as (t1 & t2 & -> & <-). eauto 10.
    - intros (Hp & Hne & t1 & t2 & -> & ->). exists p. split.
      + apply list_elem_of_fmap. exists (length t1). split; [done|].
        apply naive_scan_occurs. eauto.
      + by apply list_elem_of_filter. }
  split; [done|].
  intros z p (_ & _ & t1 & t2 & -> & ->)%Hchar. rewrite !length_app. lia.
Qed.

(** ** Searching before [build_failure_links] *)

Lemma follow_failure_none fuel h c :
  follow_failure fuel h None c = Raise AttributeError.
Proof. by destruct fuel. Qed.

Lemma follow_failure_hit fuel h n c m :
  goto h n c = Some m → follow_failure fuel h (Some n) c = Ok n.
Proof.
  intros Hg. assert (Hmem : dict_mem c (children (deref h n)) = true).
  { apply dict_mem_true. unfold goto in Hg. by rewrite Hg. }
  destruct fuel; simpl; by rewrite Hmem, orb_true_r.
Qed.

Lemma follow_failure_root fuel h c :
  follow_failure fuel h (Some root) c = Ok root.
Proof. by destruct fuel. Qed.

Lemma walk_from_app h s : ∀ n t,
  walk_from h n (s ++ t) =
    match walk_from h n s with Some m => walk_from h m t | None => None end.
Proof.
  induction s as [|c s IH]; intros n t; simpl; [done|].
  destruct (goto h n c); [apply IH|done].
Qed.

Lemma trie_inv_output_bound a lbl n k :
  trie_inv a lbl → k ∈ output (deref (heap a) n) → k < length (patterns a).
Proof.
  intros Hinv Hk. pose proof (ti_wf Hinv) as Hwf.
  destruct (decide (n < length (heap a))) as [Hn|Hn].
  - destruct (valid_label lbl _ _ Hwf Hn) as [s Hs].
    rewrite (ti_out Hinv _ _ Hs) in Hk.
    apply elem_of_lit in Hk. by eapply lookup_lt_Some.
  - rewrite deref_ge in Hk by lia. by apply elem_of_nil in Hk.
Qed.

Lemma search_loop_along_path a lbl fuel s : ∀ cur i rest ms n,
  trie_inv a lbl → walk_from (heap a) cur s = Some n →
  ∃ ms', search_loop fuel a cur i (s ++ rest) ms =
         search_loop fuel a n (i + length s) rest ms'.
Proof.
  induction s as [|c s IH]; intros cur i rest ms n Hinv Hwalk; simpl in Hwalk.
  - simplify_eq. exists ms. simpl. by rewrite Nat.add_0_r.
  - destruct (goto (heap a) cur c) as [m1|] eqn:Hg; [|done].
    change ((c :: s) ++ rest) with (c :: (s ++ rest)).
    rewrite search_loop_cons, (follow_failure_hit _ _ _ _ _ Hg). simpl.
    rewrite Hg. simpl.
    edestruct (emit_in_bounds (patterns a) i) as [ms1 ->].
    { intros k. by apply (trie_inv_output_bound a lbl m1). }
    simpl. destruct (IH m1 (S i) rest ms1 n Hinv Hwalk) as [ms' ->].
    exists ms'. f_equal. lia.
Qed.

(** X8. A search run before [build_failure_links] raises
    [AttributeError] as soon as the text leaves the trie below the
    root: no failure link is set yet, and the fallback loop dereferences
    [None]. *)
Theorem search_before_build_raises ps s c (rest : list char) (fuel : nat) :
  let a := add_patterns ps new_automaton in
  s ≠ [] → is_Some (walk (heap a) s) → walk (heap a) (s ++ [c]) = None →
  search (S fuel) a (s ++ c :: rest) = Raise AttributeError.
Proof.
  intros a Hs [n Hn] Hnone.
  destruct (add_patterns_trie_inv ps) as (lbl & Hinv & _). fold a in Hinv.
  pose proof (ti_wf Hinv) as Hwf.
  unfold search.
  destruct (search_loop_along_path a lbl (S fuel) s root 0 (c :: rest) [] n
              Hinv Hn) as [ms' ->].
  unfold walk in Hnone. rewrite walk_from_app in Hnone.
  unfold walk in Hn. rewrite Hn in Hnone. simpl in Hnone.
  assert (Hg : goto (heap a) n c = None) by (by destruct (goto (heap a) n c)).
  assert (Hnr : n ≠ root).
  { intros ->. apply (walk_label _ _ _ _ Hwf) in Hn.
    pose proof (wf_root Hwf). by simplify_eq. }
  rewrite search_loop_cons. simpl.
  rewrite (bool_decide_eq_false_2 _ Hnr). unfold goto in Hg. unfold dict_mem.
  rewrite Hg. simpl. by rewrite (ti_fail Hinv), follow_failure_none.
Qed.

(** ** Size of the trie *)

Lemma add_patterns_length ps : ∀ a,
  length (heap (add_patterns ps a)) ≤ length (heap a) + sum_list_with length ps.
Proof.
  induction ps as [|p ps IH]; intros a; simpl; [lia|].
  etrans; [apply IH|]. pose proof (add_pattern_length a p). lia.
Qed.

(** X9. The trie has at least one state more than the length of any
    inserted pattern and at most one more than the sum of their lengths. *)
Theorem trie_size_bounds ps :
  (∀ p, p ∈ ps → length p < trie_size ps) ∧
  1 ≤ trie_size ps ≤ S (sum_list_with length ps).
Proof.
  split_and!.
  - intros p Hp. by apply pattern_depth_bound.
  - destruct (add_patterns_trie_inv ps) as (lbl & Hinv & _).
    unfold trie_size. eapply Nat.le_succ_l, label_valid; [apply (ti_wf Hinv)|].
    apply (wf_root (ti_wf Hinv)).
  - unfold trie_size. apply (add_patterns_length ps new_automaton).
Qed.

(** ** Nothing to find *)

Lemma add_patterns_all_empty ps a :
  (∀ p, p ∈ ps → p = []) → add_patterns ps a = a.
Proof.
  revert a. induction ps as [|p ps IH]; intros a Hall; simpl; [done|].
  rewrite (Hall p) by left. rewrite add_pattern_nil.
  apply IH. intros; apply Hall; by right.
Qed.

Lemma search_loop_no_patterns fuel text : ∀ i (ms : list (match_ char)),
  search_loop fuel new_automaton root i text ms = Ok ms.
Proof.
  induction text as [|c text IH]; intros i ms; [done|].
  rewrite search_loop_cons, follow_failure_root. simpl. apply IH.
Qed.

(** X10. When no non-empty pattern was inserted the search reports
    nothing on any text, with any fuel; and a built automaton reports
    nothing on the empty text. *)
Theorem nothing_to_find ps text (fuel : nat) :
  ((∀ p, p ∈ ps → p = []) → run fuel ps text = Ok []) ∧
  (trie_size ps ≤ fuel → run fuel ps [] = Ok []).
Proof.
  split.
  - intros Hall. unfold run, build.
    rewrite (add_patterns_all_empty ps _ Hall).
    assert (Hb : build_failure_links fuel (new_automaton (char:=char))
                 = Ok new_automaton) by (by destruct fuel).
    rewrite Hb. simpl. apply search_loop_no_patterns.
  - intros Hfuel. by rewrite run_spec.
Qed.

(** ** Selecting the matches of one pattern *)

Lemma filter_bind {A B} (P : B → Prop) `{∀ x, Decision (P x)}
    (f : A → list B) (l : list A) :
  filter P (l ≫= f) = l ≫= λ x, filter P (f x).
Proof.
  induction l as [|x l IH]; [done|]. by rewrite !bind_cons, filter_app, IH.
Qed.

Lemma lit_singleton ps p k :
  NoDup ps → ps !! k = Some p → lit ps p = [k].
Proof.
  intros Hnd Hk.
  assert (Hall : ∀ j, j ∈ lit ps p → j = k).
  { intros j Hj%elem_of_lit. by eapply NoDup_lookup. }
  assert (Hin : k ∈ lit ps p) by (by apply elem_of_lit).
  assert (Hlit : NoDup (lit ps p)) by apply NoDup_filter, NoDup_seq.
  destruct (lit ps p) as [|x [|y l]].
  - by apply elem_of_nil in Hin.
  - by rewrite (Hall x) by left.
  - apply NoDup_cons in Hlit as [Hx _]. exfalso. apply Hx.
    rewrite (Hall x), (Hall y) by (repeat constructor). left.
Qed.

(** Among the matches of a scan, those of a pattern registered once are
    its occurrences, found by their last character. *)
Lemma filter_scan_spec ps p text :
  NoDup ps → p ∈ ps →
  filter (λ r : match_ char, r.2 = p) (scan_spec ps text) = end_scan p text.
Proof.
  intros Hnd (k & Hk)%list_elem_of_lookup_1. unfold scan_spec, end_scan.
  rewrite filter_bind. apply list_bind_ext; [|done]. intros i.
  rewrite occurrence_at_bind. unfold matches_at. rewrite filter_bind.
  apply list_bind_ext; [|done]. intros t.
  destruct (decide (p = t)) as [<-|Hne].
  - rewrite (lit_singleton _ _ _ Hnd Hk). simpl.
    by rewrite filter_cons_True, filter_nil.
  - induction (lit ps t) as [|j l IH]; [done|]. simpl.
    rewrite filter_cons_False; [done|]. simpl. congruence.
Qed.

(** ** Scanning a longer text; patterns inserted several times *)

Lemma scan_spec_app ps t1 t2 :
  scan_spec ps (t1 ++ t2) =
    scan_spec ps t1 ++
    (j ← seq 0 (length t2);
     matches_at ps (length t1 + j) (t1 ++ take (S j) t2)).
Proof.
  unfold scan_spec. rewrite length_app, seq_app, bind_app. f_equal.
  - apply Forall_bind_ext, Forall_forall. intros i Hi%elem_of_seq.
    by rewrite take_app_le by lia.
  - replace (0 + length t1) with (length t1 + 0) by lia.
    rewrite <- (fmap_add_seq (length t1) 0), list_fmap_bind.
    apply list_bind_ext; [|done]. intros j. simpl.
    f_equal. rewrite take_app_ge by lia. f_equal. f_equal. lia.
Qed.

(** X11. The matches found in a text are the first matches found in
    any extension of it: what the search has reported after a prefix
    never changes when more text follows. *)
Theorem search_prefix_stable ps t1 t2 (fuel : nat) :
  trie_size ps ≤ fuel →
  ∃ ms1 ms2, run fuel ps t1 = Ok ms1 ∧ run fuel ps (t1 ++ t2) = Ok (ms1 ++ ms2) ∧
    ∀ r, r ∈ ms2 → (Z.of_nat (length t1) ≤ match_end r)%Z.
Proof.
  intros Hfuel. rewrite !run_spec by done. rewrite scan_spec_app.
  eexists _, _. split_and!; [done..|].
  intros r (j & (_ & _ & Hr)%elem_of_matches_at & _)%list_elem_of_bind.
  unfold match_end, start_of in *. rewrite Hr. lia.
Qed.

Lemma count_bind {A B} (P : B → Prop) `{∀ x, Decision (P x)}
    (f : A → list B) (l : list A) :
  length (filter P (l ≫= f)) = sum_list_with (λ x, length (filter P (f x))) l.
Proof.
  induction l as [|x l IH]; [done|].
  by rewrite bind_cons, filter_app, length_app, IH.
Qed.

Lemma NoDup_naive_scan p text : NoDup (naive_scan p text).
Proof. apply NoDup_filter, NoDup_seq. Qed.

Lemma count_in_NoDup {A} `{EqDecision A} (x : A) (l : list A) :
  NoDup l → length (filter (λ y, y = x) l) = if decide (x ∈ l) then 1 else 0.
Proof.
  induction 1 as [|y l Hy Hnd IH]; [done|].
  rewrite filter_cons. destruct (decide (y = x)) as [->|Hne]; simpl.
  - rewrite IH, decide_False, decide_True by (done || left). done.
  - rewrite IH. destruct (decide (x ∈ l)).
    + by rewrite decide_True by (by right).
    + rewrite decide_False; [done|]. intros [?|?]%elem_of_cons; congruence.
Qed.

Lemma count_tagged_same p (i : nat) (l : list nat) :
  length (filter (λ r : match_ char, r = (Z.of_nat i, p))
                 ((λ j, (Z.of_nat j, p)) <$> l))
  = length (filter (λ j, j = i) l).
Proof.
  induction l as [|j l IH]; [done|]. rewrite fmap_cons, !filter_cons.
  destruct (decide (j = i)) as [->|Hji].
  - rewrite decide_True by done. simpl. f_equal. exact IH.
  - rewrite decide_False; [exact IH|]. intros [= ?%Nat2Z.inj]. done.
Qed.

Lemma count_tagged_other p q (i : nat) (l : list nat) :
  q ≠ p →
  filter (λ r : match_ char, r = (Z.of_nat i, p))
         ((λ j, (Z.of_nat j, q)) <$> l) = [].
Proof.
  intros Hne. induction l as [|j l IH]; [done|].
  rewrite fmap_cons, filter_cons_False; [done|]. congruence.
Qed.

(** X12. A pattern inserted [k] times is reported [k] times at each of
    its occurrences: the number of copies of [(z, p)] among the matches
    is the number of times [p] was inserted when [p] occurs at offset
    [z], and zero otherwise. *)
Theorem match_multiplicity ps text (fuel : nat) (i : nat) p :
  trie_size ps ≤ fuel → p ≠ [] →
  ∃ ms, run fuel ps text = Ok ms ∧
    length (filter (λ r, r = (Z.of_nat i, p)) ms) =
      if decide (i ∈ naive_scan p text)
      then length (filter (λ q, q = p) ps) else 0.
Proof.
  intros Hfuel Hp. eexists. split; [by apply run_spec|].
  assert (Hperm := scan_spec_naive (filter (λ q, q ≠ []) ps) text).
  rewrite Hperm by (by intros q [? _]%list_elem_of_filter).
  unfold naive_matches. rewrite count_bind. clear Hperm Hfuel.
  induction ps as [|q ps IH]; simpl.
  - by destruct (decide _).
  - rewrite !filter_cons.
    destruct (decide (q ≠ [])) as [Hq|Hq]; simpl.
    + rewrite IH. destruct (decide (q = p)) as [->|Hne].
      * rewrite count_tagged_same, count_in_NoDup by apply NoDup_naive_scan.
        destruct (decide (i ∈ naive_scan p text)); simpl; lia.
      * by rewrite count_tagged_other.
    + apply dec_stable in Hq. subst q.
      rewrite IH. by rewrite (decide_False (P:=[] = p)) by done.
Qed.

End more_proofs.

(** * Properties of the validation harness *)

Section harness_proofs.
Import Matcher.
Implicit Types (data rows : list Row) (row : Row) (m : AhoCorasickMatcher).

Lemma sorted_eq_iff (l1 l2 : list Z) : sorted l1 = sorted l2 ↔ l1 ≡ₚ l2.
Proof.
  unfold sorted. split.
  - intros Heq. by rewrite <- (merge_sort_Permutation Z.le l1), Heq,
      merge_sort_Permutation.
  - intros Hperm. apply (StronglySorted_unique Z.le).
    + apply StronglySorted_merge_sort; apply _.
    + apply StronglySorted_merge_sort; apply _.
    + by rewrite !merge_sort_Permutation.
Qed.

Lemma elem_of_unique (l : list (list ascii)) x : x ∈ unique l ↔ x ∈ l.
Proof.
  induction l as [|y l IH]; simpl; [done|].
  rewrite !elem_of_cons, list_elem_of_filter, IH.
  destruct (decide (x = y)); tauto.
Qed.

Lemma NoDup_unique (l : list (list ascii)) : NoDup (unique l).
Proof.
  induction l as [|y l IH]; simpl; constructor.
  - by intros [? _]%list_elem_of_filter.
  - by apply NoDup_filter.
Qed.

Lemma elem_of_dataset_patterns data p :
  p ∈ dataset_patterns data ↔ p ≠ [] ∧ ∃ row, row ∈ data ∧ pattern row = p.
Proof.
  unfold dataset_patterns.
  rewrite list_elem_of_filter, elem_of_unique, list_elem_of_fmap.
  split; intros [Hne (row & H1 & H2)]; (split; [done|]); exists row; auto.
Qed.

Lemma NoDup_dataset_patterns data : NoDup (dataset_patterns data).
Proof. apply NoDup_filter, NoDup_unique. Qed.

Lemma build_automaton_spec data (fuel : nat) (mx ri : Z) :
  trie_size (dataset_patterns data) ≤ fuel →
  ∃ a lbl,
    build_automaton fuel data (init mx ri) =
      Done {| max_errors_to_print := mx; report_interval := ri;
              automaton := a; errors := []; correct := 0 |} ∧
    auto_inv a lbl ∧ patterns a = dataset_patterns data ∧
    length (heap a) = trie_size (dataset_patterns data).
Proof.
  intros Hfuel.
  destruct (build_spec (dataset_patterns data) fuel Hfuel)
    as (a & lbl & Hb & Hinv & Hp & Hl).
  exists a, lbl. split_and!; [|done| |done].
  - unfold build_automaton. fold (dataset_patterns data). simpl.
    unfold build in Hb. by rewrite Hb.
  - rewrite Hp. apply filter_nonempty_id.
    by intros p [? _]%elem_of_dataset_patterns.
Qed.

Lemma row_matches_spec (a : AhoCorasick ascii) lbl data row (fuel : nat) :
  auto_inv a lbl → patterns a = dataset_patterns data →
  length (heap a) ≤ fuel → row ∈ data →
  row_matches fuel a row = Done (true_matches row).
Proof.
  intros Hinv Hp Hfuel Hrow. unfold row_matches, true_matches.
  case_decide as Hpat; [done|].
  rewrite (search_spec a lbl) by done. simpl. f_equal.
  transitivity ((end_scan (pattern row) (original_text row)).*1).
  - f_equal. rewrite Hp. apply filter_scan_spec.
    + apply NoDup_dataset_patterns.
    + apply elem_of_dataset_patterns. eauto.
  - rewrite end_scan_naive by done. by rewrite <- list_fmap_compose.
Qed.




(** X13. [build_automaton] registers every distinct non-empty pattern
    of the dataset once, in order of first appearance, and leaves the
    counters of the matcher at zero. *)
Theorem build_automaton_registers_once data (fuel : nat) (mx ri : Z) :
  trie_size (dataset_patterns data) ≤ fuel →
  ∃ m, build_automaton fuel data (init mx ri) = Done m ∧
    patterns (automaton m) = filter (λ p, p ≠ []) (unique (pattern <$> data)) ∧
    NoDup (patterns (automaton m)) ∧
    (∀ p, p ∈ patterns (automaton m)
          ↔ p ≠ [] ∧ ∃ row, row ∈ data ∧ pattern row = p) ∧
    errors m = [] ∧ correct m = 0.
Proof.
  intros Hfuel.
  destruct (build_automaton_spec data fuel mx ri Hfuel)
    as (a & lbl & Hb & _ & Hp & _).
  eexists. split; [exact Hb|]. simpl. rewrite Hp. split_and!; [done| | |done..].
  - apply NoDup_dataset_patterns.
  - apply elem_of_dataset_patterns.
Qed.

(** X14. For a row with a non-empty pattern, [validate] takes as
    matches the offsets of the naive scan of the row's text against its
    pattern, each once and in increasing order, and counts the row as
    correct exactly when the ground truth is a rearrangement of them. *)
Theorem validate_checks_occurrences data row (fuel : nat) (mx ri : Z) :
  trie_size (dataset_patterns data) ≤ fuel →
  row ∈ data → pattern row ≠ [] →
  ∃ m, build_automaton fuel data (init mx ri) = Done m ∧
    row_matches fuel (automaton m) row =
      Done (Z.of_nat <$> naive_scan (pattern row) (original_text row)) ∧
    (row_correct (Z.of_nat <$> naive_scan (pattern row) (original_text row)) row
     ↔ ground_truth_indexes row
         ≡ₚ Z.of_nat <$> naive_scan (pattern row) (original_text row)).
Proof.
  intros Hfuel Hrow Hpat.
  destruct (build_automaton_spec data fuel mx ri Hfuel)
    as (a & lbl & Hb & Hinv & Hp & Hl).
  eexists. split; [exact Hb|]. simpl. split.
  - rewrite (row_matches_spec a lbl data) by (done || lia).
    unfold true_matches. by rewrite decide_False.
  - unfold row_correct. rewrite sorted_eq_iff. split; by intros ->.
Qed.




End harness_proofs.

(** * The further properties at concrete inputs *)

Lemma build_failure_links_frame_witness :
  ∃ a', build_failure_links 3 (add_patterns [str "ab"] new_automaton) = Ok a' ∧
        patterns a' = [str "ab"] ∧ length (heap a') = 3.
Proof.
  destruct (build_failure_links 3 (add_patterns [str "ab"] new_automaton))
    as [a'| |] eqn:Hb; [|by vm_compute in Hb..].
  exists a'. split; [reflexivity|].
  destruct (build_failure_links_frame _ _ _ Hb) as (Hp & Hl & _).
  split; [exact Hp | exact Hl].
Defined.

Lemma add_pattern_keeps_paths_witness :
  walk (heap (add_patterns [str "he"] new_automaton)) (str "h") = Some 1 ∧
  walk (heap (add_pattern (str "hers") (add_patterns [str "he"] new_automaton)))
       (str "h") = Some 1.
Proof.
  assert (H : walk (heap (add_patterns [str "he"] new_automaton)) (str "h")
              = Some 1) by reflexivity.
  split; [exact H|].
  exact (proj1 (add_pattern_keeps_paths [str "he"] (str "hers") (str "h") 1 H)).
Defined.

Lemma output_lists_after_build_witness :
  trie_size ushers_patterns ≤ 8 ∧
  ∃ a, build 8 ushers_patterns = Ok a ∧
       failure_link (deref (heap a) root) = None ∧
       output (deref (heap a) root) = [].
Proof.
  split; [exact ushers_trie_size|].
  destruct (output_lists_after_build ushers_patterns 8 ushers_trie_size)
    as (a & Hb & Hf & Ho & _).
  exists a. split; [exact Hb|]. split; [exact Hf | exact Ho].
Defined.

Lemma matches_ordered_by_end_witness :
  trie_size ushers_patterns ≤ 8 ∧
  ∃ ms, run 8 ushers_patterns (str "ushers") = Ok ms ∧
        StronglySorted match_le ms.
Proof.
  split; [exact ushers_trie_size|].
  exact (matches_ordered_by_end ushers_patterns (str "ushers") 8
           ushers_trie_size).
Defined.

Lemma matches_are_occurrences_witness :
  trie_size [str ""; str "he"] ≤ 3 ∧
  ∃ ms, run 3 [str ""; str "he"] (str "ushers") = Ok ms ∧
        ∀ z p, (z, p) ∈ ms →
          (0 ≤ z)%Z ∧ (z + Z.of_nat (length p) ≤ Z.of_nat (length (str "ushers")))%Z.
Proof.
  assert (H : trie_size [str ""; str "he"] ≤ 3) by (vm_compute; lia).
  split; [exact H|].
  destruct (matches_are_occurrences [str ""; str "he"] (str "ushers") 3 H)
    as (ms & Hrun & _ & Hbound).
  exists ms. split; [exact Hrun | exact Hbound].
Defined.

Lemma search_before_build_raises_witness :
  str "a" ≠ [] ∧
  is_Some (walk (heap (add_patterns [str "ab"] new_automaton)) (str "a")) ∧
  walk (heap (add_patterns [str "ab"] new_automaton)) (str "a" ++ str "c") = None ∧
  search 1 (add_patterns [str "ab"] new_automaton) (str "ac")
    = Raise AttributeError.
Proof.
  assert (H1 : str "a" ≠ []) by done.
  assert (H2 : is_Some (walk (heap (add_patterns [str "ab"] new_automaton))
                             (str "a"))) by (by exists 1).
  assert (H3 : walk (heap (add_patterns [str "ab"] new_automaton))
                    (str "a" ++ str "c") = None) by reflexivity.
  split; [exact H1|]. split; [exact H2|]. split; [exact H3|].
  exact (search_before_build_raises [str "ab"] (str "a") "c"%char [] 0 H1 H2 H3).
Defined.

Lemma nothing_to_find_witness :
  (∀ p, p ∈ [str ""; str ""] → p = []) ∧
  run 0 [str ""; str ""] (str "abc") = Ok [].
Proof.
  assert (H : ∀ p, p ∈ [str ""; str ""] → p = []).
  { intros p Hp. repeat (apply elem_of_cons in Hp as [->|Hp]; [done|]).
    by apply elem_of_nil in Hp. }
  split; [exact H|].
  exact (proj1 (nothing_to_find [str ""; str ""] (str "abc") 0) H).
Defined.

Lemma search_prefix_stable_witness :
  trie_size ushers_patterns ≤ 8 ∧
  ∃ ms1 ms2, run 8 ushers_patterns (str "ush") = Ok ms1 ∧
             run 8 ushers_patterns (str "ush" ++ str "ers") = Ok (ms1 ++ ms2).
Proof.
  split; [exact ushers_trie_size|].
  destruct (search_prefix_stable ushers_patterns (str "ush") (str "ers") 8
              ushers_trie_size) as (ms1 & ms2 & H1 & H2 & _).
  exists ms1, ms2. split; [exact H1 | exact H2].
Defined.

Lemma match_multiplicity_witness :
  trie_size [str "ab"; str "ab"; str "b"] ≤ 4 ∧ str "ab" ≠ [] ∧
  ∃ ms, run 4 [str "ab"; str "ab"; str "b"] (str "cab") = Ok ms ∧
        length (filter (λ r, r = (1%Z, str "ab")) ms) = 2.
Proof.
  assert (H1 : trie_size [str "ab"; str "ab"; str "b"] ≤ 4) by (vm_compute; lia).
  assert (H2 : str "ab" ≠ []) by done.
  split; [exact H1|]. split; [exact H2|].
  destruct (match_multiplicity [str "ab"; str "ab"; str "b"] (str "cab") 4 1
              (str "ab") H1 H2) as (ms & Hrun & Hcount).
  exists ms. split; [exact Hrun | exact Hcount].
Defined.

Lemma sample_data_fuel : trie_size (Matcher.dataset_patterns sample_data) ≤ 6.
Proof. vm_compute. lia. Defined.

Lemma build_automaton_registers_once_witness :
  trie_size (Matcher.dataset_patterns sample_data) ≤ 6 ∧
  ∃ m, Matcher.build_automaton 6 sample_data (Matcher.init 10 1000) = Matcher.Done m ∧
       patterns (Matcher.automaton m) = [str "he"; str "she"].
Proof.
  split; [exact sample_data_fuel|].
  destruct (build_automaton_registers_once sample_data 6 10 1000 sample_data_fuel)
    as (m & Hb & Hp & _).
  exists m. split; [exact Hb | exact Hp].
Defined.

Lemma validate_checks_occurrences_witness :
  trie_size (Matcher.dataset_patterns sample_data) ≤ 6 ∧
  Matcher.mkRow (str "ushers") (str "he") [2%Z] ∈ sample_data ∧
  str "he" ≠ [] ∧
  ∃ m, Matcher.build_automaton 6 sample_data (Matcher.init 10 1000) = Matcher.Done m ∧
       Matcher.row_matches 6 (Matcher.automaton m)
         (Matcher.mkRow (str "ushers") (str "he") [2%Z]) = Matcher.Done [2%Z].
Proof.
  assert (H2 : Matcher.mkRow (str "ushers") (str "he") [2%Z] ∈ sample_data)
    by left.
  assert (H3 : str "he" ≠ []) by done.
  split; [exact sample_data_fuel|]. split; [exact H2|]. split; [exact H3|].
  destruct (validate_checks_occurrences sample_data _ 6 10 1000
              sample_data_fuel H2 H3) as (m & Hb & Hm & _).
  exists m. split; [exact Hb | exact Hm].
Defined.




(** The harness on the sample: the first row is counted, the other two
    are recorded with their index, ground truth and matches. *)
Example sample_validation :
  (m ← Matcher.build_automaton 6 sample_data (Matcher.init 10 1000);
   m' ← Matcher.validate 6 sample_data m;
   Matcher.Done (Matcher.correct m', Matcher.errors m'))
  = Matcher.Done
      (1, [ Matcher.mkErrorCase 1 (str "EMPTY") [] [0; 1; 2]%Z (str "abc");
            Matcher.mkErrorCase 2 (str "'she'") [1%Z] [0%Z] (str "she") ]).
Proof. by vm_compute. Qed.
